(** * graphqlgin: a GraphQL handler for gin, with multipart uploads

    Shallow embedding of [handler.go] of package [graphqlgin]: the path
    walker [set], the error envelope [graphqlErrorReply], the context
    providers, the application object and the request handler returned by
    [Handler].

    Library calls (strings, regexp, strconv, context, gin's response
    writer) are modelled in modules named after their Go packages; the
    JSON decoder, the execution engine and the iteration order of Go maps
    are parameters of the handler. *)

From Stdlib Require Import ZArith Lia Ascii String.
From stdpp Require Import base option list strings gmap fin_maps.

Set Warnings "-register-all,-notation-for-abbreviation".

Local Open Scope Z_scope.

(** Go's [error] values are only ever printed by this package: an error
    is kept as its message. *)
Definition error : Type := string.

(* ===================================================================== *)
(** ** Library models *)
(* ===================================================================== *)

Module strings.

(** [strings.Split(s, ".")]: the fields between dots; a string without a
    dot (the empty string too) is one field. *)
Fixpoint Split (s : string) : list string :=
  match s with
  | EmptyString => [EmptyString]
  | String c rest =>
      if Ascii.eqb c "."%char then EmptyString :: Split rest
      else match Split rest with
           | [] => [String c EmptyString]
           | tok :: toks => String c tok :: toks
           end
  end.

(** [strings.Join(toks, ".")], the inverse of [Split]. *)
Fixpoint Join (toks : list string) : string :=
  match toks with
  | [] => EmptyString
  | [tok] => tok
  | tok :: rest => tok +:+ String "."%char (Join rest)
  end.

End strings.

Module regexp.

(** The class [\d] of Go's RE2 syntax: the ASCII digits. *)
Definition is_digit (c : ascii) : bool :=
  (48 <=? nat_of_ascii c)%nat && (nat_of_ascii c <=? 57)%nat.

(** The longest run of digits at the head of [s] and what follows it. *)
Fixpoint span_digits (s : string) : string * string :=
  match s with
  | EmptyString => (EmptyString, EmptyString)
  | String c rest =>
      if is_digit c
      then let '(run, tail) := span_digits rest in (String c run, tail)
      else (EmptyString, s)
  end.

(** [regexp.MatchString(`\d+`, s)]: the pattern is not anchored, so the
    search tries every offset of [s] for a non-empty run of digits.  The
    pattern compiles, so the error of the Go call is always nil and only
    the boolean is kept. *)
Fixpoint MatchString_digits (s : string) : bool :=
  match s with
  | EmptyString => false
  | String c rest =>
      match fst (span_digits s) with
      | String _ _ => true
      | EmptyString => MatchString_digits rest
      end
  end.

(** The anchored pattern [^[0-9]+$]. *)
Fixpoint all_digits (s : string) : bool :=
  match s with
  | EmptyString => true
  | String c rest => is_digit c && all_digits rest
  end.

Definition MatchString_anchored (s : string) : bool :=
  match s with
  | EmptyString => false
  | String _ _ => all_digits s
  end.

End regexp.

Module strconv.

Definition ErrSyntax : error := "invalid syntax".
Definition ErrRange : error := "value out of range".

(** Size of an [int] in bits: a 64-bit platform. *)
Definition IntSize : Z := 64.

Definition maxInt : Z := 2 ^ 63 - 1.
Definition minInt : Z := - 2 ^ 63.
Definition maxUint64 : Z := 2 ^ 64 - 1.

(** Conversion to [uint64] and to [int64]: the value wraps. *)
Definition uint64 (z : Z) : Z := z mod 2 ^ 64.
Definition int64 (z : Z) : Z := (z + 2 ^ 63) mod 2 ^ 64 - 2 ^ 63.

(** The loop of the fast path of [Atoi]: the value of a string of decimal
    digits, [None] at the first other byte. *)
Fixpoint digits_value (acc : Z) (s : string) : option Z :=
  match s with
  | EmptyString => Some acc
  | String c rest =>
      if regexp.is_digit c
      then digits_value (acc * 10 + (Z.of_nat (nat_of_ascii c) - 48)) rest
      else None
  end.

(** The loop of [ParseUint] for base 10 and 64 bits, one byte at a time:
    a byte that is no decimal digit ends it with a syntax error, and a
    digit that takes the value beyond [uint64] ends it with the largest
    [uint64] and a range error, whatever bytes follow. *)
Fixpoint ParseUint_loop (n : Z) (s : string) : Z * option error :=
  match s with
  | EmptyString => (n, None)
  | String c rest =>
      if regexp.is_digit c then
        let d := Z.of_nat (nat_of_ascii c) - 48 in
        let cutoff := maxUint64 / 10 + 1 in
        if cutoff <=? n then (maxUint64, Some ErrRange)
        else
          let n' := uint64 (n * 10) in
          let n1 := uint64 (n' + d) in
          if (n1 <? n') || (maxUint64 <? n1)
          then (maxUint64, Some ErrRange)
          else ParseUint_loop n1 rest
      else (0, Some ErrSyntax)
  end.

(** [strconv.ParseUint(s, 10, 0)]. *)
Definition ParseUint (s : string) : Z * option error :=
  match s with
  | EmptyString => (0, Some ErrSyntax)
  | String _ _ => ParseUint_loop 0 s
  end.

(** [strconv.ParseInt(s, 10, 0)]: a leading sign is picked off, the rest
    goes to [ParseUint]; a range error of [ParseUint] is kept and the
    value is checked against the bounds of [int64]. *)
Definition ParseInt (s : string) : Z * option error :=
  match s with
  | EmptyString => (0, Some ErrSyntax)
  | String c rest =>
      let '(neg, body) :=
        if Ascii.eqb c "+" then (false, rest)
        else if Ascii.eqb c "-" then (true, rest)
        else (false, s) in
      let '(un, err) := ParseUint body in
      let syntax :=
        match err with
        | Some e => negb (String.eqb e ErrRange)
        | None => false
        end in
      if syntax then (0, err)
      else
        let cutoff := 2 ^ (IntSize - 1) in
        if negb neg && (cutoff <=? un) then (int64 (cutoff - 1), Some ErrRange)
        else if neg && (cutoff <? un)
        then (int64 (- int64 cutoff), Some ErrRange)
        else
          let n := int64 un in
          let n := if neg then int64 (- n) else n in
          (n, None)
  end.

(** [strconv.Atoi] on a 64-bit platform.  A string of 1 to 18 bytes takes
    the fast path: an optional sign and decimal digits, anything else is a
    syntax error with the value 0.  Every other string goes to [ParseInt],
    whose value is returned with its error: a value out of range gives
    the nearest bound of [int]. *)
Definition Atoi (s : string) : Z * option error :=
  let sLen := Z.of_nat (String.length s) in
  if (0 <? sLen) && (sLen <? 19) then
    let '(neg, body) :=
      match s with
      | String "-"%char rest => (true, rest)
      | String "+"%char rest => (false, rest)
      | _ => (false, s)
      end in
    match body with
    | EmptyString => (0, Some ErrSyntax)
    | String _ _ =>
        match digits_value 0 body with
        | None => (0, Some ErrSyntax)
        | Some n => (if neg then - n else n, None)
        end
    end
  else ParseInt s.

End strconv.

Module http.
Definition StatusOK : Z := 200.
Definition StatusInternalServerError : Z := 500.
End http.

Module fmt.
(** [fmt.Sprintf("%s (%s)", a, b)]. *)
Definition Sprintf_s_paren_s (a b : string) : string :=
  a +:+ " (" +:+ b +:+ ")".
End fmt.

(* ===================================================================== *)
(** ** Dynamically typed values *)
(* ===================================================================== *)

(** A [*multipart.FileHeader]: the address of the header inside the
    parsed multipart form.  Two handles are the same reference exactly
    when the addresses are equal. *)
Definition FileHeaderPtr : Type := positive.

(** What an [interface{}] holds in this package: the values that
    [encoding/json] decodes into [interface{}] (nil, bool, float64, string,
    [[]interface{}], [map[string]interface{}]), the typed nil map of a
    [VariableValues] field left unset, and the file handles that the
    handler places.  The decoder builds a tree: no container is reachable
    along two paths, so a write through the cursor of [set] is a
    functional update of the enclosing tree. *)
Inductive value : Type :=
| VNil
| VBool (b : bool)
| VFloat64 (bits : Z)
| VString (s : string)
| VSlice (elems : list value)
| VMap (entries : gmap string value)
| VNilMap
| VFile (fh : FileHeaderPtr).

(** Run-time panics the walker can raise. *)
Inductive panic : Type :=
| PanicTypeAssertion      (* interface conversion: x.(T) on another type *)
| PanicNilMapAssignment   (* assignment to entry in nil map *)
| PanicIndexOutOfRange.   (* index out of range *)

(** A Go call either returns or panics. *)
Inductive result (A : Type) : Type :=
| Return (a : A)
| Panic (p : panic).
Arguments Return {A} a.
Arguments Panic {A} p.

Definition result_bind {A B : Type} (r : result A) (k : A -> result B)
  : result B :=
  match r with
  | Return a => k a
  | Panic p => Panic p
  end.

Notation "'let*' x ':=' r 'in' k" := (result_bind r (fun x => k))
  (at level 10, x name, r at level 100, k at level 200).

(** An element of [parts]: an [interface{}] holding an [int] or a
    [string]. *)
Inductive part : Type :=
| PInt (index : Z)
| PString (name : string).

(** One round of the first loop of [set] (lines 85-94): the token is an
    index when the pattern [\d+] is found in it, and the error of
    [strconv.Atoi] is dropped. *)
Definition parse_part (p : string) : part :=
  if regexp.MatchString_digits p
  then PInt (fst (strconv.Atoi p))
  else PString p.

Definition parse_parts (path : string) : list part :=
  map parse_part (strings.Split path).

(** [parts[0] != "variables"] on an [interface{}]: an [int] differs from
    every string. *)
Definition part_neq_string (p : part) (s : string) : bool :=
  match p with
  | PString q => negb (String.eqb q s)
  | PInt _ => true
  end.

(** [m.([]interface{})[idx]] *)
Definition slice_index (m : value) (idx : Z) : result value :=
  match m with
  | VSlice elems =>
      if (0 <=? idx) && (idx <? Z.of_nat (length elems))
      then match elems !! Z.to_nat idx with
           | Some x => Return x
           | None => Panic PanicIndexOutOfRange
           end
      else Panic PanicIndexOutOfRange
  | _ => Panic PanicTypeAssertion
  end.

(** [m.([]interface{})[idx] = v] *)
Definition slice_assign (m : value) (idx : Z) (v : value) : result value :=
  match m with
  | VSlice elems =>
      if (0 <=? idx) && (idx <? Z.of_nat (length elems))
      then Return (VSlice (<[Z.to_nat idx := v]> elems))
      else Panic PanicIndexOutOfRange
  | _ => Panic PanicTypeAssertion
  end.

(** [m.(map[string]interface{})[idx]]: a missing key, and every key of a
    nil map, reads as the nil interface. *)
Definition map_index (m : value) (idx : string) : result value :=
  match m with
  | VMap entries => Return (default VNil (entries !! idx))
  | VNilMap => Return VNil
  | _ => Panic PanicTypeAssertion
  end.

(** [m.(map[string]interface{})[idx] = v] *)
Definition map_assign (m : value) (idx : string) (v : value) : result value :=
  match m with
  | VMap entries => Return (VMap (<[idx := v]> entries))
  | VNilMap => Panic PanicNilMapAssignment
  | _ => Panic PanicTypeAssertion
  end.

(** The container [m] after the element that the cursor moved to has
    become [child']: maps and slices are references, so what the walk
    wrote below the cursor is seen from [m].  A key that was missing stays
    missing (the cursor was the nil interface, nothing can be written
    through it). *)
Definition map_writeback (m : value) (idx : string) (child' : value) : value :=
  match m with
  | VMap entries =>
      match entries !! idx with
      | Some _ => VMap (<[idx := child']> entries)
      | None => m
      end
  | _ => m
  end.

Definition slice_writeback (m : value) (idx : Z) (child' : value) : value :=
  match m with
  | VSlice elems => VSlice (<[Z.to_nat idx := child']> elems)
  | _ => m
  end.

(** The second loop of [set] (lines 102-118) over [parts[1:]]: [n] is
    [len(parts)], [i] the loop index, [m] the cursor.  The result is the
    container the loop was entered with, after the writes. *)
Fixpoint set_loop (n : nat) (v : value) (i : nat) (ps : list part)
    (m : value) : result value :=
  match ps with
  | [] => Return m
  | p :: ps' =>
      let last := Nat.eqb (i + 2) n in
      match p with
      | PString idx =>
          if last
          then let* m' := map_assign m idx v in set_loop n v (S i) ps' m'
          else let* child := map_index m idx in
               let* child' := set_loop n v (S i) ps' child in
               Return (map_writeback m idx child')
      | PInt idx =>
          if last
          then let* m' := slice_assign m idx v in set_loop n v (S i) ps' m'
          else let* child := slice_index m idx in
               let* child' := set_loop n v (S i) ps' child in
               Return (slice_writeback m idx child')
      end
  end.

(** [set(v, m, path)] (lines 83-120): the container [m] afterwards and the
    error returned, or a panic. *)
Definition set (v m : value) (path : string)
  : result (value * option error) :=
  let parts := parse_parts path in
  if Nat.eqb (length parts) 0
  then Return (m, Some "empty path found")
  else if Nat.leb 1 (length parts)
          && part_neq_string (nth 0 parts (PString "")) "variables"
  then Return (m, Some "first part of path is supposed to be variables")
  else let* m' := set_loop (length parts) v 0 (drop 1 parts) m in
       Return (m', None).

(** The walk by structural recursion on the segments left: the segment is
    the last one when nothing follows it. *)
Fixpoint place (v : value) (ps : list part) (m : value) : result value :=
  match ps with
  | [] => Return m
  | [PString idx] => map_assign m idx v
  | [PInt idx] => slice_assign m idx v
  | PString idx :: ps' =>
      let* child := map_index m idx in
      let* child' := place v ps' child in
      Return (map_writeback m idx child')
  | PInt idx :: ps' =>
      let* child := slice_index m idx in
      let* child' := place v ps' child in
      Return (slice_writeback m idx child')
  end.

(* ===================================================================== *)
(** ** Request parameters *)
(* ===================================================================== *)

(** A field of type [map[string]interface{}]: [None] is the nil map. *)
Definition to_interface (vars : option (gmap string value)) : value :=
  match vars with
  | Some entries => VMap entries
  | None => VNilMap
  end.

(** The map behind an [interface{}] that was made from such a field. *)
Definition of_interface (m : value) : option (gmap string value) :=
  match m with
  | VMap entries => Some entries
  | _ => None
  end.

(** Basic GraphQL request parameters. *)
Record GraphQLRequestParams : Type := {
  RequestString : string;
  VariableValues : option (gmap string value);
  OperationName : string
}.

(** GraphQL request parameters including file upload maps and operations;
    [Basic] is the embedded [GraphQLRequestParams]. *)
Record GraphQLRequest : Type := {
  Basic : GraphQLRequestParams;
  OperationsString : string;
  MapString : string
}.

Module gin.

(** What the handler reads from a [*gin.Context]: the outcome of
    [c.ShouldBind] on a zero [GraphQLRequest] (the struct as far as it was
    filled, and the error), [c.GetPostForm] (the value when the second
    result is true) and [c.FormFile] (the header pointer, nil as [None],
    and the error). *)
Record Context : Type := {
  ShouldBind : GraphQLRequest * option error;
  GetPostForm : string -> option string;
  FormFile : string -> option FileHeaderPtr * option error
}.

(** A [*gin.Context]; [None] is the nil pointer. *)
Definition ContextPtr : Type := option Context.

End gin.

(** The values of type [any] that travel in a [context.Context]. *)
Inductive any : Type :=
| ANil
| AString (s : string)
| AInt (n : Z)
| AGinContext (c : gin.ContextPtr)
| AValue (v : value).

Module context.

(** Keys are compared with [==] on interfaces: the dynamic types must
    agree, so a key of a named string type differs from the plain string
    with the same bytes. *)
Inductive key : Type :=
| KString (s : string)
| KInt (n : Z)
| KNamed (type_name : string) (s : string).

#[global] Instance key_eq_dec : EqDecision key.
Proof. solve_decision. Defined.

(** [context.Background()] and the contexts built on it by
    [context.WithValue]. *)
Inductive Context : Type :=
| Background
| WithValue (parent : Context) (k : key) (val : any).

(** [ctx.Value(k)]: the innermost binding of [k], nil without one. *)
Fixpoint Value (ctx : Context) (k : key) : any :=
  match ctx with
  | Background => ANil
  | WithValue parent k' val =>
      if decide (k' = k) then val else Value parent k
  end.

End context.

Module graphql.

Record Scalar : Type := {
  Name : string;
  Description : string;
  Serialize : value -> value
}.

(** A named type of a type map: a scalar, or a type of another kind
    (object, interface, union, enum, input object), of which only the
    name under which it is mapped matters here. *)
Inductive NamedType : Type :=
| ScalarType (s : Scalar)
| OtherType.

(** The schema as far as this package touches it: its type map, keyed by
    the names of the types.  The map is allocated, as it is in every
    schema that [graphql.NewSchema] returns without an error.  The zero
    [graphql.Schema] has a nil type map; [AppendType] panics on it
    (assignment to entry in nil map), and so does [New]: it is no value
    of this type. *)
Record Schema : Type := { typeMap : gmap string NamedType }.

(** [schema.AppendType(t)] for a scalar [t] without a construction error:
    a type without a name is left out, a name that is mapped already keeps
    the type it has, and a new name is mapped to [t].  The call returns an
    error (when another type has the name); its only caller drops it, and
    the type map is the same with and without it. *)
Definition AppendType (schema : Schema) (t : Scalar) : Schema :=
  match Name t with
  | EmptyString => schema
  | String _ _ =>
      match typeMap schema !! Name t with
      | Some _ => schema
      | None => {| typeMap := <[Name t := ScalarType t]> (typeMap schema) |}
      end
  end.

Record Params : Type := {
  PSchema : Schema;
  PRequestString : string;
  PVariableValues : option (gmap string value);
  POperationName : string;
  PContext : context.Context
}.

Record Result : Type := {
  Data : value;
  Errors : list string
}.

End graphql.

(* ===================================================================== *)
(** ** The package *)
(* ===================================================================== *)

(** Function to update or modify the context passed down to the resolver
    functions. *)
Definition ContextProviderFn : Type :=
  gin.ContextPtr -> context.Context -> context.Context.

(** Key for setting the [*gin.Context] value of the current request. *)
Definition GinContextKey : string := "GinContext".

Definition GinContextProvider : ContextProviderFn :=
  fun c ctx => context.WithValue ctx (context.KString GinContextKey) (AGinContext c).

(** [ginContext, _ := ctx.Value(GinContextKey).( *gin.Context)]: the
    two-result assertion gives the nil pointer on any other type. *)
Definition GetGinContext (ctx : context.Context) : gin.ContextPtr :=
  match context.Value ctx (context.KString GinContextKey) with
  | AGinContext ginContext => ginContext
  | _ => None
  end.

Record GraphQLApp : Type := {
  Schema : graphql.Schema;
  ContextProviders : list ContextProviderFn
}.

(** GraphQL scalar to represent file upload variable. *)
Definition UploadType : graphql.Scalar :=
  {| graphql.Name := "Upload";
     graphql.Description := "File upload scalar";
     graphql.Serialize := fun v => v |}.

(** [New(schema, contextProviders...)], for a schema whose type map is
    allocated. *)
Definition New (schema : graphql.Schema) (contextProviders : list ContextProviderFn)
  : GraphQLApp :=
  let contextProviderFns := [GinContextProvider] in
  let contextProviderFns := contextProviderFns ++ contextProviders in
  {| Schema := graphql.AppendType schema UploadType;
     ContextProviders := contextProviderFns |}.

(** [graphqlErrorReply(message, err)] *)
Definition graphqlErrorReply (message : string) (err : error) : value :=
  VMap {[ "errors" :=
            VSlice [ VMap {[ "message" :=
                               VString (fmt.Sprintf_s_paren_s message err) ]} ] ]}.

(** What [c.JSON] is given to serialise. *)
Inductive body : Type :=
| BodyValue (v : value)
| BodyResult (r : graphql.Result).

(** The calls a request makes that are visible outside the handler, in
    the order they happen. *)
Inductive event : Type :=
| EvAbortWithError (code : Z) (err : error)
| EvJSON (code : Z) (obj : body)
| EvSet (v : value) (path : string)
| EvProvider (i : nat)
| EvDo (params : graphql.Params).

(** How a call of the handler ends. *)
Inductive exit : Type :=
| Finished
| Panicked (p : panic).

(** What reaches the client.  gin sends the status line once: by
    [AbortWithError] (through [WriteHeaderNow]) or with the first body
    written; a later [c.JSON] cannot change the status any more and only
    appends its body. *)
Record Response : Type := {
  wire_status : option Z;
  wire_body : list body
}.

Definition write_event (w : Response) (e : event) : Response :=
  match e with
  | EvAbortWithError code _ =>
      {| wire_status := Some (default code (wire_status w));
         wire_body := wire_body w |}
  | EvJSON code obj =>
      {| wire_status := Some (default code (wire_status w));
         wire_body := wire_body w ++ [obj] |}
  | _ => w
  end.

Definition response_of (evs : list event) : Response :=
  fold_left write_event evs {| wire_status := None; wire_body := [] |}.

(* ===================================================================== *)
(** ** The request handler *)
(* ===================================================================== *)

Section Handler.

(** [json.Unmarshal] into a zero [GraphQLRequestParams] and into an empty
    [map[string][]string]: the target afterwards and the error. *)
Variable Unmarshal_params : string -> GraphQLRequestParams * option error.
Variable Unmarshal_map : string -> gmap string (list string) * option error.

(** The order in which a [range] loop visits a map.  Go leaves it
    unspecified: every order is a possible run. *)
Variable range_s : gmap string (list string) -> list (string * list string).
Variable range_p :
  gmap FileHeaderPtr (list string) -> list (FileHeaderPtr * list string).

(** [graphql.Do] *)
Variable Do : graphql.Params -> graphql.Result.

(** The loop of lines 181-196 over the entries of [variableMap] still to
    visit: the error of [c.FormFile] that stops it, or the two maps. *)
Fixpoint collect (c : gin.Context) (todo : list (string * list string))
    (uploads : gmap FileHeaderPtr (list string))
    (variables : gmap string (list string))
  : error + gmap FileHeaderPtr (list string) * gmap string (list string) :=
  match todo with
  | [] => inr (uploads, variables)
  | (key, path) :: todo' =>
      match gin.GetPostForm c key with
      | Some value =>
          (* this is a plain variable, not a file upload *)
          collect c todo' uploads (<[value := path]> variables)
      | None =>
          match gin.FormFile c key with
          | (_, Some err) => inl err
          | (Some fileHeader, None) =>
              collect c todo' (<[fileHeader := path]> uploads) variables
          | (None, None) => collect c todo' uploads variables
          end
      end
  end.

(** How the loops that call [set] end. *)
Inductive sets_exit : Type :=
| SetsDone (m : value)
| SetsError (err : error)
| SetsPanic (p : panic).

(** [for _, path := range paths { set(v, m, path) ... }] *)
Fixpoint set_paths (v : value) (paths : list string) (m : value)
  : list event * sets_exit :=
  match paths with
  | [] => ([], SetsDone m)
  | path :: paths' =>
      match set v m path with
      | Panic p => ([EvSet v path], SetsPanic p)
      | Return (_, Some err) => ([EvSet v path], SetsError err)
      | Return (m', None) =>
          let '(evs, r) := set_paths v paths' m' in
          (EvSet v path :: evs, r)
      end
  end.

(** The loops of lines 204-214 and 217-227 over the entries still to
    visit; [inj] makes the [interface{}] from the map key. *)
Fixpoint set_entries {K : Type} (inj : K -> value)
    (todo : list (K * list string)) (m : value) : list event * sets_exit :=
  match todo with
  | [] => ([], SetsDone m)
  | (k, paths) :: todo' =>
      match set_paths (inj k) paths m with
      | (evs, SetsDone m') =>
          let '(evs', r) := set_entries inj todo' m' in (evs ++ evs', r)
      | (evs, r) => (evs, r)
      end
  end.

(** How the block of lines 155-228 ends: the request to go on with, an
    error reply followed by [return], or a panic. *)
Inductive assembled : Type :=
| AsmOk (graphqlRequest : GraphQLRequest)
| AsmReply (message : string) (err : error)
| AsmPanic (p : panic).

Definition assemble (c : gin.Context) (graphqlRequest : GraphQLRequest)
  : list event * assembled :=
  if (0 <? String.length (MapString graphqlRequest))%nat
     && (0 <? String.length (OperationsString graphqlRequest))%nat
  then
    (* unmarshal graphql operations *)
    match Unmarshal_params (OperationsString graphqlRequest) with
    | (_, Some err) => ([], AsmReply "invalid operations string" err)
    | (graphqlOperations, None) =>
    (* unmarshal upload/variable map *)
    match Unmarshal_map (MapString graphqlRequest) with
    | (_, Some err) => ([], AsmReply "invalid map string" err)
    | (variableMap, None) =>
    (* collect form data from variable map *)
    match collect c (range_s variableMap) ∅ ∅ with
    | inl err => ([], AsmReply "invalid file upload" err)
    | inr (uploads, variables) =>
    (* update graphql request data: the request now refers to the map of
       the operations, which the calls of set write into *)
    let m0 := to_interface (VariableValues graphqlOperations) in
    (* set found form values to request variable values *)
    match set_entries VString (range_s variables) m0 with
    | (evs, SetsError err) => (evs, AsmReply "could not set variable" err)
    | (evs, SetsPanic p) => (evs, AsmPanic p)
    | (evs, SetsDone m1) =>
    (* set found form file uploads to request variable values *)
    match set_entries VFile (range_p uploads) m1 with
    | (evs', SetsError err) =>
        (evs ++ evs', AsmReply "could not set variable" err)
    | (evs', SetsPanic p) => (evs ++ evs', AsmPanic p)
    | (evs', SetsDone m2) =>
        (evs ++ evs',
         AsmOk {| Basic :=
                    {| RequestString := RequestString graphqlOperations;
                       VariableValues := of_interface m2;
                       OperationName := OperationName graphqlOperations |};
                  OperationsString := OperationsString graphqlRequest;
                  MapString := MapString graphqlRequest |})
    end end end end end
  else ([], AsmOk graphqlRequest).

(** [ctx := context.Background(); for _, provider := range
    app.ContextProviders { ctx = provider(c, ctx) }] *)
Definition run_providers (providers : list ContextProviderFn)
    (c : gin.Context) : context.Context :=
  fold_left (fun ctx provider => provider (Some c) ctx) providers
            context.Background.

(** Lines 150-152: a failed bind is reported with [c.AbortWithError]. *)
Definition bind_events (err : option error) : list event :=
  match err with
  | Some err => [EvAbortWithError http.StatusInternalServerError err]
  | None => []
  end.

(** Lines 237-243: the parameters given to [graphql.Do]. *)
Definition params_of (app : GraphQLApp) (graphqlRequest : GraphQLRequest)
    (ctx : context.Context) : graphql.Params :=
  {| graphql.PSchema := Schema app;
     graphql.PRequestString := RequestString (Basic graphqlRequest);
     graphql.POperationName := OperationName (Basic graphqlRequest);
     graphql.PVariableValues := VariableValues (Basic graphqlRequest);
     graphql.PContext := ctx |}.

(** The closure returned by [Handler] (lines 147-253), run on the
    application object as it is when the request arrives.  After
    [c.AbortWithError] the closure goes on: there is no [return] in that
    branch. *)
Definition serve (app : GraphQLApp) (c : gin.Context) : list event * exit :=
  (* collect graphql request parameters *)
  let '(graphqlRequest, err) := gin.ShouldBind c in
  let bound := bind_events err in
  match assemble c graphqlRequest with
  | (evs, AsmReply message err) =>
      (bound ++ evs ++ [EvJSON http.StatusOK (BodyValue (graphqlErrorReply message err))],
       Finished)
  | (evs, AsmPanic p) => (bound ++ evs, Panicked p)
  | (evs, AsmOk graphqlRequest) =>
      (* create resolver context *)
      let ctx := run_providers (ContextProviders app) c in
      (* construct graphql params *)
      let params := params_of app graphqlRequest ctx in
      (* process graphql query *)
      let result := Do params in
      (* respond *)
      (bound ++ evs
         ++ map EvProvider (seq 0 (length (ContextProviders app)))
         ++ [EvDo params; EvJSON http.StatusOK (BodyResult result)],
       Finished)
  end.

(** [app.Handler(contextProviders...)]: the application object after the
    append of line 145, and the closure.  The closure holds the pointer
    [app], so it is a function of the state of the object at request
    time. *)
Definition Handler (app : GraphQLApp) (contextProviders : list ContextProviderFn)
  : GraphQLApp * (GraphQLApp -> gin.Context -> list event * exit) :=
  ({| Schema := Schema app;
      ContextProviders := ContextProviders app ++ contextProviders |},
   serve).

End Handler.

(* ===================================================================== *)
(** ** Shapes along a path *)
(* ===================================================================== *)

(** The element of an ordered container at a Go index, when in range. *)
Definition element_at (elems : list value) (idx : Z) : option value :=
  if idx <? 0 then None else elems !! Z.to_nat idx.

(** A segment of the path meets a container of the wrong shape: a field
    name meets something that is not a [map[string]interface{}], or an
    index meets something that is not a [[]interface{}].  The cursor moves
    as the walk does; an index out of range ends the walk with no
    mismatch. *)
Fixpoint shape_mismatch (ps : list part) (m : value) : bool :=
  match ps with
  | [] => false
  | PString idx :: ps' =>
      match m with
      | VMap entries => shape_mismatch ps' (default VNil (entries !! idx))
      | VNilMap => shape_mismatch ps' VNil
      | _ => true
      end
  | PInt idx :: ps' =>
      match m with
      | VSlice elems =>
          match element_at elems idx with
          | Some x => shape_mismatch ps' x
          | None => false
          end
      | _ => true
      end
  end.

(** A token read as the spec words it: an index when it matches
    [^[0-9]+$], a field name otherwise. *)
Definition spec_is_index (tok : string) : bool :=
  regexp.MatchString_anchored tok.

(** The kinds of events. *)
Definition is_EvSet (e : event) : bool :=
  match e with EvSet _ _ => true | _ => false end.

Definition is_EvDo (e : event) : bool :=
  match e with EvDo _ => true | _ => false end.

Definition is_EvProvider (e : event) : bool :=
  match e with EvProvider _ => true | _ => false end.

(** A reply built by the handler itself, not by the engine. *)
Definition is_error_reply (e : event) : bool :=
  match e with EvJSON _ (BodyValue _) => true | _ => false end.

(** The value under a field name of the variables given to the engine. *)
Definition variable_of (params : graphql.Params) (name : string)
  : option value :=
  match graphql.PVariableValues params with
  | Some entries => entries !! name
  | None => None
  end.

(* ===================================================================== *)
(** ** Reading a container along a path *)
(* ===================================================================== *)

(** Equality of two parts as [interface{}] values: the dynamic types and
    the values agree. *)
Definition part_eqb (p q : part) : bool :=
  match p, q with
  | PInt i, PInt j => i =? j
  | PString a, PString b => String.eqb a b
  | _, _ => false
  end.

(** What is stored at the end of a path: [None] when a key is missing, an
    index is out of range or a segment meets the wrong shape. *)
Fixpoint walk (ps : list part) (m : value) : option value :=
  match ps with
  | [] => Some m
  | PString idx :: ps' =>
      match m with
      | VMap entries =>
          match entries !! idx with
          | Some child => walk ps' child
          | None => None
          end
      | _ => None
      end
  | PInt idx :: ps' =>
      match m with
      | VSlice elems =>
          match element_at elems idx with
          | Some child => walk ps' child
          | None => None
          end
      | _ => None
      end
  end.

(** Two paths part ways: at some position, before either ends, their
    segments differ. *)
Fixpoint diverge (ps qs : list part) : bool :=
  match ps, qs with
  | p :: ps', q :: qs' => if part_eqb p q then diverge ps' qs' else true
  | _, _ => false
  end.

(** The position a path names exists in the container: every segment but
    the last leads to an element, and the last one names a key of a
    non-nil map or an index within an ordered container. *)
Fixpoint addressable (ps : list part) (m : value) : bool :=
  match ps with
  | [] => true
  | p :: ps' =>
      match ps' with
      | [] =>
          match p, m with
          | PString _, VMap _ => true
          | PInt idx, VSlice elems =>
              match element_at elems idx with Some _ => true | None => false end
          | _, _ => false
          end
      | _ :: _ =>
          match p, m with
          | PString idx, VMap entries =>
              match entries !! idx with
              | Some child => addressable ps' child
              | None => false
              end
          | PInt idx, VSlice elems =>
              match element_at elems idx with
              | Some child => addressable ps' child
              | None => false
              end
          | _, _ => false
          end
      end
  end.

(** An index segment, met on an ordered container, lies outside it. *)
Fixpoint index_out_of_range (ps : list part) (m : value) : bool :=
  match ps with
  | [] => false
  | PString idx :: ps' =>
      match m with
      | VMap entries => index_out_of_range ps' (default VNil (entries !! idx))
      | _ => false
      end
  | PInt idx :: ps' =>
      match m with
      | VSlice elems =>
          match element_at elems idx with
          | Some x => index_out_of_range ps' x
          | None => true
          end
      | _ => false
      end
  end.

(** The decimal value of a string of digits, most significant first. *)
Definition digit_of (c : ascii) : Z := Z.of_nat (nat_of_ascii c) - 48.

Definition decimal (s : string) : Z :=
  fold_left (fun acc c => acc * 10 + digit_of c) (list_ascii_of_string s) 0.

#[global] Instance part_eq_dec : EqDecision part.
Proof. solve_decision. Defined.

(** The segments of a path after the root marker, as the second loop of
    [set] sees them. *)
Definition segments (path : string) : list part := drop 1 (parse_parts path).

(** The first token of a path passes the check of line 98. *)
Definition rooted (path : string) : bool :=
  negb (part_neq_string (nth 0 (parse_parts path) (PString "")) "variables").

(** A series of walks, each on the container the one before left. *)
Fixpoint place_all (todo : list (value * list part)) (m : value)
  : result value :=
  match todo with
  | [] => Return m
  | (v, ps) :: todo' => let* m' := place v ps m in place_all todo' m'
  end.

(** The value and the segments of every call of [set] that the loops of
    lines 204-227 make over the entries [todo], in order. *)
Definition assignments {K : Type} (inj : K -> value)
    (todo : list (K * list string)) : list (value * list part) :=
  todo ≫= fun entry =>
    (fun path => (inj (fst entry), segments path)) <$> snd entry.

(** The value the handler takes for a form field: the text when
    [c.GetPostForm] finds one, else the file header that [c.FormFile]
    returns without an error. *)
Definition field_value (c : gin.Context) (key : string) : option value :=
  match gin.GetPostForm c key with
  | Some text => Some (VString text)
  | None =>
      match gin.FormFile c key with
      | (Some fileHeader, None) => Some (VFile fileHeader)
      | _ => None
      end
  end.

(** The map that a loop builds by [m[k] = paths] over the entries whose
    field has a key [k] under [f]. *)
Definition keyed_inserts {K : Type} `{Countable K} (f : string -> option K)
    (todo : list (string * list string)) (m : gmap K (list string))
  : gmap K (list string) :=
  fold_left (fun m entry =>
               match f (fst entry) with
               | Some k => <[k := snd entry]> m
               | None => m
               end)
            todo m.

(** The text of a field that is a plain variable, and the header of a
    field that is a file upload. *)
Definition text_of (c : gin.Context) (key : string) : option string :=
  match field_value c key with
  | Some (VString text) => Some text
  | _ => None
  end.

Definition file_of (c : gin.Context) (key : string) : option FileHeaderPtr :=
  match field_value c key with
  | Some (VFile fileHeader) => Some fileHeader
  | _ => None
  end.

(** The field is a text field, or [c.FormFile] returns without an error
    for it. *)
Definition field_ok (c : gin.Context) (key : string) : bool :=
  match gin.GetPostForm c key with
  | Some _ => true
  | None =>
      match snd (gin.FormFile c key) with
      | Some _ => false
      | None => true
      end
  end.

(** A call of [set] with the text of a plain variable, and one with a
    file header. *)
Definition is_text_set (e : event) : bool :=
  match e with EvSet (VString _) _ => true | _ => false end.

Definition is_file_set (e : event) : bool :=
  match e with EvSet (VFile _) _ => true | _ => false end.

Section Registrations.

Variable Unmarshal_params : string -> GraphQLRequestParams * option error.
Variable Unmarshal_map : string -> gmap string (list string) * option error.
Variable range_s : gmap string (list string) -> list (string * list string).
Variable range_p :
  gmap FileHeaderPtr (list string) -> list (FileHeaderPtr * list string).
Variable Do : graphql.Params -> graphql.Result.

(** The application object after [app.Handler] was called once for each
    list of providers, in order. *)
Definition register_all (app : GraphQLApp)
    (registrations : list (list ContextProviderFn)) : GraphQLApp :=
  fold_left
    (fun app contextProviders =>
       fst (Handler Unmarshal_params Unmarshal_map range_s range_p Do
                    app contextProviders))
    registrations app.

End Registrations.

(** A provider that leaves the binding of the reserved key as it is. *)
Definition keeps_gin_context (provider : ContextProviderFn) : Prop :=
  forall c ctx,
    context.Value (provider c ctx) (context.KString GinContextKey)
    = context.Value ctx (context.KString GinContextKey).

(* ===================================================================== *)
(** ** Sample requests *)
(* ===================================================================== *)

Module Sample.

Local Open Scope string_scope.

(** [{"files": [null], "file2": null}] *)
Definition vars_files : gmap string value :=
  {[ "files" := VSlice [VNil]; "file2" := VNil ]}.

(** [{"x": null, "y": null}] *)
Definition vars_xy : gmap string value :=
  {[ "x" := VNil; "y" := VNil ]}.

(** [{"file": null}] *)
Definition vars_file : gmap string value := {[ "file" := VNil ]}.

Definition operations_xy : GraphQLRequestParams :=
  {| RequestString := "mutation($x:String,$y:String){m(x:$x,y:$y)}";
     VariableValues := Some vars_xy;
     OperationName := "" |}.

Definition operations_file : GraphQLRequestParams :=
  {| RequestString := "mutation($file:Upload!){singleUpload(file:$file){filename}}";
     VariableValues := Some vars_file;
     OperationName := "" |}.

(** [{"a": ["variables.x"], "b": ["variables.y"]}] *)
Definition map_ab : gmap string (list string) :=
  {[ "a" := ["variables.x"]; "b" := ["variables.y"] ]}.

(** [{"file": ["variables.file"]}] *)
Definition map_file : gmap string (list string) :=
  {[ "file" := ["variables.file"] ]}.

(** The JSON texts of the samples, as the client sends them. *)
Definition dq : string := String "034"%char EmptyString.

Definition jstr (s : string) : string := dq +:+ s +:+ dq.

(** [{"query":"...","variables":{"x":null,"y":null}}] *)
Definition json_operations_xy : string :=
  "{" +:+ jstr "query" +:+ ":" +:+ jstr (RequestString operations_xy) +:+ ","
      +:+ jstr "variables" +:+ ":{" +:+ jstr "x" +:+ ":null,"
      +:+ jstr "y" +:+ ":null}}".

(** [{"query":"...","variables":{"file":null}}] *)
Definition json_operations_file : string :=
  "{" +:+ jstr "query" +:+ ":" +:+ jstr (RequestString operations_file) +:+ ","
      +:+ jstr "variables" +:+ ":{" +:+ jstr "file" +:+ ":null}}".

(** [{"a":["variables.x"],"b":["variables.y"]}] *)
Definition json_map_ab : string :=
  "{" +:+ jstr "a" +:+ ":[" +:+ jstr "variables.x" +:+ "],"
      +:+ jstr "b" +:+ ":[" +:+ jstr "variables.y" +:+ "]}".

(** [{"file":["variables.file"]}] *)
Definition json_map_file : string :=
  "{" +:+ jstr "file" +:+ ":[" +:+ jstr "variables.file" +:+ "]}".

(** The zero value of the struct. *)
Definition zero_params : GraphQLRequestParams :=
  {| RequestString := ""; VariableValues := None; OperationName := "" |}.

(** A decoder that agrees with [encoding/json] on the texts of the
    samples: the four texts above decode to [operations_xy],
    [operations_file], [map_ab] and [map_file]; every other text, the
    unfinished object ["{"] in particular, is rejected. *)
Definition Unmarshal_params (data : string)
  : GraphQLRequestParams * option error :=
  if String.eqb data json_operations_xy then (operations_xy, None)
  else if String.eqb data json_operations_file then (operations_file, None)
  else (zero_params, Some "unexpected end of JSON input").

Definition Unmarshal_map (data : string)
  : gmap string (list string) * option error :=
  if String.eqb data json_map_ab then (map_ab, None)
  else if String.eqb data json_map_file then (map_file, None)
  else (∅, Some "unexpected end of JSON input").

(** One possible iteration order: that of the map's own listing. *)
Definition range_s (m : gmap string (list string))
  : list (string * list string) := map_to_list m.
Definition range_p (m : gmap FileHeaderPtr (list string))
  : list (FileHeaderPtr * list string) := map_to_list m.

(** An engine that answers with the variables it was given. *)
Definition Do (params : graphql.Params) : graphql.Result :=
  {| graphql.Data := to_interface (graphql.PVariableValues params);
     graphql.Errors := [] |}.

Definition zero_request : GraphQLRequest :=
  {| Basic := zero_params; OperationsString := ""; MapString := "" |}.

(** A JSON body that does not parse: nothing is bound. *)
Definition c_bad_body : gin.Context :=
  {| gin.ShouldBind := (zero_request, Some "unexpected EOF");
     gin.GetPostForm := fun _ => None;
     gin.FormFile := fun _ => (None, Some "request Content-Type isn't multipart/form-data") |}.

(** A multipart form with the field [operations] holding ["{"] and no
    field [map]. *)
Definition c_operations_only : gin.Context :=
  {| gin.ShouldBind :=
       ({| Basic := zero_params; OperationsString := "{"; MapString := "" |},
        None);
     gin.GetPostForm := fun key => if String.eqb key "operations" then Some "{" else None;
     gin.FormFile := fun _ => (None, Some "http: no such file") |}.

(** A multipart form with [operations] and [map] both holding ["{"]. *)
Definition c_both_malformed : gin.Context :=
  {| gin.ShouldBind :=
       ({| Basic := zero_params; OperationsString := "{"; MapString := "{" |},
        None);
     gin.GetPostForm := fun key =>
       if String.eqb key "operations" || String.eqb key "map"
       then Some "{" else None;
     gin.FormFile := fun _ => (None, Some "http: no such file") |}.

(** A multipart form with the text fields [a] and [b], both ["1"]. *)
Definition c_equal_values : gin.Context :=
  {| gin.ShouldBind :=
       ({| Basic := zero_params;
           OperationsString := json_operations_xy;
           MapString := json_map_ab |}, None);
     gin.GetPostForm := fun key =>
       if String.eqb key "a" || String.eqb key "b" then Some "1"
       else if String.eqb key "operations" then Some json_operations_xy
       else if String.eqb key "map" then Some json_map_ab
       else None;
     gin.FormFile := fun _ => (None, Some "http: no such file") |}.

(** A multipart form whose map names the field [file], with no part of
    that name. *)
Definition c_missing_file : gin.Context :=
  {| gin.ShouldBind :=
       ({| Basic := zero_params;
           OperationsString := json_operations_file;
           MapString := json_map_file |}, None);
     gin.GetPostForm := fun key =>
       if String.eqb key "operations" then Some json_operations_file
       else if String.eqb key "map" then Some json_map_file
       else None;
     gin.FormFile := fun _ => (None, Some "http: no such file") |}.

(** The same form with the file part [file], its header at address 5. *)
Definition c_single_file : gin.Context :=
  {| gin.ShouldBind := gin.ShouldBind c_missing_file;
     gin.GetPostForm := gin.GetPostForm c_missing_file;
     gin.FormFile := fun key =>
       if String.eqb key "file" then (Some 5%positive, None)
       else (None, Some "http: no such file") |}.

(** A JSON body with a query and variables, no upload fields. *)
Definition c_plain : gin.Context :=
  {| gin.ShouldBind :=
       ({| Basic := {| RequestString := "query hello { hello }";
                       VariableValues := Some ∅;
                       OperationName := "hello" |};
           OperationsString := ""; MapString := "" |}, None);
     gin.GetPostForm := fun _ => None;
     gin.FormFile := fun _ => (None, Some "request Content-Type isn't multipart/form-data") |}.

(** A provider that counts how often it ran, under the key ["runs"]. *)
Definition count_runs : ContextProviderFn :=
  fun _ ctx =>
    match context.Value ctx (context.KString "runs") with
    | AInt n => context.WithValue ctx (context.KString "runs") (AInt (n + 1))
    | _ => context.WithValue ctx (context.KString "runs") (AInt 1)
    end.

Definition empty_schema : graphql.Schema := {| graphql.typeMap := ∅ |}.

End Sample.

(* ===================================================================== *)
(** ** More sample requests *)
(* ===================================================================== *)

Module Fixture.

Local Open Scope string_scope.

(** [{"files": [null, null], "note": null}] *)
Definition vars_album : gmap string value :=
  {[ "files" := VSlice [VNil; VNil]; "note" := VNil ]}.

Definition operations_album : GraphQLRequestParams :=
  {| RequestString := "mutation($files:[Upload!]!,$note:String){album(files:$files,note:$note)}";
     VariableValues := Some vars_album;
     OperationName := "" |}.

(** The same operations without the member [variables]. *)
Definition operations_bare : GraphQLRequestParams :=
  {| RequestString := RequestString operations_album;
     VariableValues := None;
     OperationName := "" |}.

(** [{"0": ["variables.files.0"], "n": ["variables.note"]}] *)
Definition map_album : gmap string (list string) :=
  {[ "0" := ["variables.files.0"]; "n" := ["variables.note"] ]}.

Definition json_operations_album : string :=
  "{" +:+ Sample.jstr "query" +:+ ":"
      +:+ Sample.jstr (RequestString operations_album) +:+ ","
      +:+ Sample.jstr "variables" +:+ ":{" +:+ Sample.jstr "files"
      +:+ ":[null,null]," +:+ Sample.jstr "note" +:+ ":null}}".

Definition json_operations_bare : string :=
  "{" +:+ Sample.jstr "query" +:+ ":"
      +:+ Sample.jstr (RequestString operations_album) +:+ "}".

Definition json_map_album : string :=
  "{" +:+ Sample.jstr "0" +:+ ":[" +:+ Sample.jstr "variables.files.0" +:+ "],"
      +:+ Sample.jstr "n" +:+ ":[" +:+ Sample.jstr "variables.note" +:+ "]}".

(** A decoder that agrees with [encoding/json] on these texts. *)
Definition Unmarshal_params (data : string)
  : GraphQLRequestParams * option error :=
  if String.eqb data json_operations_album then (operations_album, None)
  else if String.eqb data json_operations_bare then (operations_bare, None)
  else (Sample.zero_params, Some "unexpected end of JSON input").

Definition Unmarshal_map (data : string)
  : gmap string (list string) * option error :=
  if String.eqb data json_map_album then (map_album, None)
  else (∅, Some "unexpected end of JSON input").

(** The form of the album: the file part [0] with its header at address
    5 and the text field [n]. *)
Definition form_text (key : string) : option string :=
  if String.eqb key "n" then Some "hello" else None.

Definition form_file (key : string) : option FileHeaderPtr * option error :=
  if String.eqb key "0" then (Some 5%positive, None)
  else (None, Some "http: no such file").

Definition c_album : gin.Context :=
  {| gin.ShouldBind :=
       ({| Basic := Sample.zero_params;
           OperationsString := json_operations_album;
           MapString := json_map_album |}, None);
     gin.GetPostForm := form_text;
     gin.FormFile := form_file |}.


(** The album form with a file part sent under the name of the text field
    as well. *)
Definition c_album_shadowed : gin.Context :=
  {| gin.ShouldBind := gin.ShouldBind c_album;
     gin.GetPostForm := form_text;
     gin.FormFile := fun key =>
       if String.eqb key "n" then (Some 9%positive, None) else form_file key |}.

End Fixture.

(* ===================================================================== *)
(** ** Facts about the library models *)
(* ===================================================================== *)

Lemma Split_not_nil (s : string) : strings.Split s ≠ [].
Proof.
  induction s as [|c rest IH]; simpl; [done|].
  destruct (Ascii.eqb c "."); [done|].
  destruct (strings.Split rest); done.
Qed.

Lemma Split_no_dot (s : string) :
  (∀ c, In c (list_ascii_of_string s) → c ≠ "."%char) →
  strings.Split s = [s].
Proof.
  induction s as [|c rest IH]; simpl; intros Hdot; [done|].
  destruct (Ascii.eqb_spec c ".") as [->|_].
  - exfalso. by apply (Hdot "."%char); [left|].
  - rewrite IH; [done|]. intros d Hd. apply Hdot. by right.
Qed.

(** Joining the fields with dots gives the string back. *)
Lemma Join_Split (s : string) : strings.Join (strings.Split s) = s.
Proof.
  induction s as [|c rest IH]; [done|].
  pose proof (Split_not_nil rest) as Hne. cbn [strings.Split].
  destruct (Ascii.eqb_spec c ".") as [->|_].
  - destruct (strings.Split rest) as [|tok toks]; [done|].
    cbn [strings.Join] in *. by rewrite IH.
  - destruct (strings.Split rest) as [|tok toks]; [done|].
    destruct toks as [|tok' toks']; cbn [strings.Join] in *;
      by rewrite <- IH.
Qed.

(** The unanchored pattern finds a match exactly when some byte of the
    string is a digit. *)
Lemma MatchString_digits_spec (s : string) :
  regexp.MatchString_digits s = true ↔
  ∃ c, In c (list_ascii_of_string s) ∧ regexp.is_digit c = true.
Proof.
  induction s as [|c rest IH]; simpl.
  - split; [done|]. by intros (c & [] & _).
  - destruct (regexp.is_digit c) eqn:Hc.
    + destruct (regexp.span_digits rest) as [run tail]. simpl.
      split; [|done]. intros _. exists c. split; [by left|done].
    + simpl. rewrite IH. split.
      * intros (d & Hd & Hdig). exists d. split; [by right|done].
      * intros (d & [<-|Hd] & Hdig); [congruence|]. by exists d.
Qed.

(** What the anchored pattern accepts, the unanchored one accepts. *)
Lemma MatchString_anchored_digits (s : string) :
  regexp.MatchString_anchored s = true → regexp.MatchString_digits s = true.
Proof.
  destruct s as [|c rest]; simpl; [done|].
  intros [Hc _]%andb_true_iff. rewrite Hc.
  by destruct (regexp.span_digits rest).
Qed.

Lemma result_bind_Return {A : Type} (r : result A) :
  (let* a := r in Return a) = r.
Proof. by destruct r. Qed.

(* ===================================================================== *)
(** ** The walker *)
(* ===================================================================== *)

(** One round of the loop. *)
Lemma set_loop_cons (n : nat) (v : value) (i : nat) (p : part)
    (ps' : list part) (m : value) :
  set_loop n v i (p :: ps') m =
    match p with
    | PString idx =>
        if Nat.eqb (i + 2) n
        then let* m' := map_assign m idx v in set_loop n v (S i) ps' m'
        else let* child := map_index m idx in
             let* child' := set_loop n v (S i) ps' child in
             Return (map_writeback m idx child')
    | PInt idx =>
        if Nat.eqb (i + 2) n
        then let* m' := slice_assign m idx v in set_loop n v (S i) ps' m'
        else let* child := slice_index m idx in
             let* child' := set_loop n v (S i) ps' child in
             Return (slice_writeback m idx child')
    end.
Proof. reflexivity. Qed.

(** The flag [last] of the loop is true exactly at the final segment, so
    the loop is the structural walk. *)
Lemma set_loop_place (v : value) (ps : list part) :
  ∀ (i : nat) (m : value),
    set_loop (i + 1 + length ps) v i ps m = place v ps m.
Proof.
  induction ps as [|p ps' IH]; intros i m; [done|].
  rewrite set_loop_cons.
  replace (i + 1 + length (p :: ps'))%nat with (S i + 1 + length ps')%nat
    by (simpl; lia).
  destruct ps' as [|p' ps''].
  - replace (i + 2 =? S i + 1 + length (@nil part))%nat with true
      by (symmetry; apply Nat.eqb_eq; simpl; lia).
    destruct p; cbn [place set_loop]; apply result_bind_Return.
  - replace (i + 2 =? S i + 1 + length (p' :: ps''))%nat with false
      by (symmetry; apply Nat.eqb_neq; simpl; lia).
    destruct p as [idx|idx]; cbn [place].
    + destruct (slice_index m idx) as [child|]; cbn [result_bind]; [|done].
      by rewrite IH.
    + destruct (map_index m idx) as [child|]; cbn [result_bind]; [|done].
      by rewrite IH.
Qed.

Lemma parse_parts_not_nil (path : string) : parse_parts path ≠ [].
Proof.
  unfold parse_parts. pose proof (Split_not_nil path).
  by destruct (strings.Split path).
Qed.

(** [set] once the path is parsed: the check of the first part, then the
    walk over the rest. *)
Lemma set_parts (v m : value) (path : string) (p0 : part) (ps : list part) :
  parse_parts path = p0 :: ps →
  set v m path =
    if part_neq_string p0 "variables"
    then Return (m, Some "first part of path is supposed to be variables"%string)
    else let* m' := place v ps m in Return (m', None).
Proof.
  intros Hparts. unfold set. rewrite Hparts. cbn [length nth Nat.eqb Nat.leb andb drop].
  destruct (part_neq_string p0 "variables"); [done|].
  replace (S (length ps)) with (0 + 1 + length ps)%nat by lia.
  by rewrite set_loop_place.
Qed.

(** The first part passes the check exactly when the first token is the
    string [variables]. *)
Lemma first_part_check (tok : string) :
  part_neq_string (parse_part tok) "variables" = false ↔ tok = "variables"%string.
Proof.
  unfold parse_part.
  destruct (regexp.MatchString_digits tok) eqn:Hdig; simpl.
  - split; [done|]. intros ->. by vm_compute in Hdig.
  - rewrite negb_false_iff. apply String.eqb_eq.
Qed.

Lemma element_at_Some (elems : list value) (idx : Z) (x : value) :
  element_at elems idx = Some x →
  (0 <=? idx) && (idx <? Z.of_nat (length elems)) = true
  ∧ elems !! Z.to_nat idx = Some x.
Proof.
  unfold element_at. destruct (Z.ltb_spec idx 0); [done|].
  intros Hx. split; [|done]. apply lookup_lt_Some in Hx.
  apply andb_true_iff. split; [apply Z.leb_le|apply Z.ltb_lt]; lia.
Qed.

Lemma element_at_None (elems : list value) (idx : Z) :
  element_at elems idx = None →
  (0 <=? idx) && (idx <? Z.of_nat (length elems)) = false.
Proof.
  unfold element_at. destruct (Z.ltb_spec idx 0) as [Hneg|Hpos].
  - intros _. apply andb_false_iff. left. apply Z.leb_gt. lia.
  - intros Hx%lookup_ge_None. apply andb_false_iff. right.
    apply Z.ltb_ge. lia.
Qed.

(** The walk below the first of several segments. *)
Lemma place_cons (v : value) (p p' : part) (ps'' : list part) (m : value) :
  place v (p :: p' :: ps'') m =
    match p with
    | PString idx =>
        let* child := map_index m idx in
        let* child' := place v (p' :: ps'') child in
        Return (map_writeback m idx child')
    | PInt idx =>
        let* child := slice_index m idx in
        let* child' := place v (p' :: ps'') child in
        Return (slice_writeback m idx child')
    end.
Proof. by destruct p. Qed.

Lemma place_panic_bind (v : value) (ps : list part) (child : value)
    (k : value → value) (p : panic) :
  (let* child' := place v ps child in Return (k child')) = Panic p
  ↔ place v ps child = Panic p.
Proof. by destruct (place v ps child). Qed.

(** The walk panics on a failed type assertion exactly when a segment
    meets a container of the wrong shape. *)
Lemma place_type_assertion (v : value) (ps : list part) :
  ∀ m, place v ps m = Panic PanicTypeAssertion ↔ shape_mismatch ps m = true.
Proof.
  induction ps as [|p ps' IH]; intros m; [done|].
  destruct ps' as [|p' ps''].
  - destruct p as [idx|idx]; destruct m; simpl; try done.
    destruct (element_at elems idx) eqn:Hel.
    + apply element_at_Some in Hel as [-> _]. done.
    + apply element_at_None in Hel as ->. done.
  - rewrite place_cons.
    change (shape_mismatch (p :: p' :: ps'') m) with
      (match p with
       | PString idx =>
           match m with
           | VMap entries =>
               shape_mismatch (p' :: ps'') (default VNil (entries !! idx))
           | VNilMap => shape_mismatch (p' :: ps'') VNil
           | _ => true
           end
       | PInt idx =>
           match m with
           | VSlice elems =>
               match element_at elems idx with
               | Some x => shape_mismatch (p' :: ps'') x
               | None => false
               end
           | _ => true
           end
       end).
    destruct p as [idx|idx]; destruct m;
      cbn [map_index slice_index result_bind]; try done.
    + destruct (element_at elems idx) eqn:Hel.
      * apply element_at_Some in Hel as [-> ->]. cbn [result_bind].
        by rewrite place_panic_bind, IH.
      * apply element_at_None in Hel as ->. done.
    + by rewrite place_panic_bind, IH.
    + by rewrite place_panic_bind, IH.
Qed.

(** Nothing can be reached through the nil interface. *)
Lemma place_nil (v : value) (p : part) (ps : list part) :
  place v (p :: ps) VNil = Panic PanicTypeAssertion.
Proof. apply place_type_assertion. by destruct p. Qed.

(** The root of the walk stays the map it was: a non-nil map stays a
    non-nil map, and a nil map cannot be written at all.  So the
    [VariableValues] field can be read back from the [interface{}] that
    [set] was given. *)
Lemma place_keeps_root (v : value) (ps : list part)
    (vars : option (gmap string value)) (m' : value) :
  place v ps (to_interface vars) = Return m' →
  to_interface (of_interface m') = m'
  ∧ (vars = None → m' = VNilMap).
Proof.
  destruct ps as [|p ps']; [intros [= <-]; by destruct vars|].
  destruct ps' as [|p' ps''].
  - destruct p as [idx|idx], vars as [entries|]; simpl; try done.
    by intros [= <-].
  - rewrite place_cons.
    destruct p as [idx|idx], vars as [entries|];
      cbn [to_interface map_index slice_index result_bind]; try done.
    + destruct (place v (p' :: ps'') _) as [child'|]; [|done].
      cbn [result_bind map_writeback]. intros [= <-].
      by destruct (entries !! idx).
    + by rewrite place_nil.
Qed.

(** A path of the root marker and one field name (no dot and no digit in
    the name) writes the value under that name and touches nothing
    else. *)
Lemma set_field (v : value) (entries : gmap string value) (name : string) :
  (∀ c, In c (list_ascii_of_string name) →
        c ≠ "."%char ∧ regexp.is_digit c = false) →
  set v (VMap entries) ("variables." +:+ name)
  = Return (VMap (<[name := v]> entries), None).
Proof.
  intros Hname.
  assert (Hsplit : strings.Split ("variables." +:+ name)
                   = ["variables"%string; name]).
  { change (strings.Split ("variables." +:+ name))
      with ("variables"%string :: strings.Split name).
    rewrite Split_no_dot; [done|]. intros c Hc. by apply Hname. }
  assert (Hpart : parse_part name = PString name).
  { unfold parse_part.
    destruct (regexp.MatchString_digits name) eqn:Hdig; [|done].
    apply MatchString_digits_spec in Hdig as (c & Hc & Hdigit).
    destruct (Hname c Hc) as [_ Hnot]. congruence. }
  rewrite (set_parts v (VMap entries) _ (PString "variables") [PString name])
    by (unfold parse_parts; by rewrite Hsplit, <- Hpart).
  done.
Qed.

(** One value placed at two such paths: both positions hold it; for a
    file it is the same handle at both. *)
Lemma set_paths_two_fields (v : value) (entries : gmap string value)
    (name1 name2 : string) :
  (∀ c, In c (list_ascii_of_string name1) →
        c ≠ "."%char ∧ regexp.is_digit c = false) →
  (∀ c, In c (list_ascii_of_string name2) →
        c ≠ "."%char ∧ regexp.is_digit c = false) →
  ∃ entries',
    set_paths v ["variables." +:+ name1; "variables." +:+ name2]
              (VMap entries)
    = ([EvSet v ("variables." +:+ name1); EvSet v ("variables." +:+ name2)],
       SetsDone (VMap entries'))
    ∧ entries' !! name1 = Some v
    ∧ entries' !! name2 = Some v
    ∧ ∀ other, other ≠ name1 → other ≠ name2 →
               entries' !! other = entries !! other.
Proof.
  intros H1 H2. exists (<[name2 := v]> (<[name1 := v]> entries)).
  cbn [set_paths]. rewrite (set_field v entries name1 H1).
  rewrite (set_field v _ name2 H2). split; [done|].
  split; [|split].
  - destruct (decide (name2 = name1)) as [->|Hne].
    + apply lookup_insert_eq.
    + rewrite lookup_insert_ne by done. apply lookup_insert_eq.
  - apply lookup_insert_eq.
  - intros other Hn1 Hn2. by rewrite !lookup_insert_ne.
Qed.

(** The path of the spec's example walks maps and a slice and leaves the
    siblings as they were. *)
Example set_nested_path :
  set (VFile 9%positive)
      (VMap {[ "a" := VMap {[ "b" := VSlice [VNil; VNil;
                                              VMap {[ "c" := VNil;
                                                      "d" := VBool true ]}];
                              "e" := VString "kept" ]} ]})
      "variables.a.b.2.c"
  = Return
      (VMap {[ "a" := VMap {[ "b" := VSlice [VNil; VNil;
                                              VMap {[ "c" := VFile 9%positive;
                                                      "d" := VBool true ]}];
                              "e" := VString "kept" ]} ]},
       None).
Proof. by vm_compute. Qed.

(* ===================================================================== *)
(** ** Claims about [set] *)
(* ===================================================================== *)

(** C1, counterexample: the field name [name] meets the ordered container
    under [files]; the call does not return an error, it panics. *)
Lemma C1_counterexample :
  shape_mismatch (map parse_part ["files"; "name"]%string)
                 (VMap Sample.vars_files) = true
  ∧ ¬ ∃ m' err,
        set (VFile 1%positive) (VMap Sample.vars_files) "variables.files.name"
        = Return (m', Some err).
Proof.
  split; [by vm_compute|].
  intros (m' & err & Hset). vm_compute in Hset. discriminate Hset.
Qed.

(** C1, as amended: for every value, every root container and every path
    whose first token is [variables], a segment that meets a container of
    the wrong shape (a field name on anything but a keyed container, an
    index on anything but an ordered container) makes [set] panic on the
    failed type assertion; no error is returned.  The panic on a type
    assertion has no other cause. *)
Theorem C1_shape_mismatch_panics (v m : value) (path : string)
    (toks : list string) :
  strings.Split path = "variables"%string :: toks →
  shape_mismatch (map parse_part toks) m = true
  ↔ set v m path = Panic PanicTypeAssertion.
Proof.
  intros Hsplit.
  rewrite (set_parts v m path (PString "variables") (map parse_part toks))
    by (unfold parse_parts; by rewrite Hsplit).
  cbn [part_neq_string String.eqb Ascii.eqb Bool.eqb negb].
  rewrite <- (place_type_assertion v).
  destruct (place v (map parse_part toks) m); cbn [result_bind];
    split; congruence.
Qed.

(** C2, on the code: every token made of digits only is an index segment,
    as the claim says, but so is every token that merely holds a digit.
    The token [file2] is a field name by the spec's rule; [set] makes it
    the index 0, and the upload addressed to the variable [file2] panics
    on the keyed container. *)
Theorem C2_token_with_digit_is_index :
  (∀ tok, spec_is_index tok = true → ∃ index, parse_part tok = PInt index)
  ∧ (∀ tok, (∃ index, parse_part tok = PInt index)
            ↔ ∃ c, In c (list_ascii_of_string tok) ∧ regexp.is_digit c = true)
  ∧ spec_is_index "file2" = false
  ∧ parse_part "file2" = PInt 0
  ∧ parse_parts "variables.file2" = [PString "variables"; PInt 0]
  ∧ set (VFile 1%positive) (VMap Sample.vars_files) "variables.file2"
    = Panic PanicTypeAssertion.
Proof.
  split; [|split].
  - intros tok Hidx%MatchString_anchored_digits.
    unfold parse_part. rewrite Hidx. eauto.
  - intros tok. rewrite <- MatchString_digits_spec. unfold parse_part.
    destruct (regexp.MatchString_digits tok); split; eauto; try done.
    by intros [index Hpart].
  - repeat split; by vm_compute.
Qed.

(** C5, counterexample: the path of the single token [variables] is
    accepted; [set] returns no error and writes nothing. *)
Lemma C5_counterexample :
  set (VFile 1%positive) (VMap Sample.vars_file) "variables"
  = Return (VMap Sample.vars_file, None)
  ∧ ¬ ∃ m' err,
        set (VFile 1%positive) (VMap Sample.vars_file) "variables"
        = Return (m', Some err).
Proof.
  split; [by vm_compute|].
  intros (m' & err & Hset). vm_compute in Hset. discriminate Hset.
Qed.

(** C5, as amended: the token sequence of a path is never empty; [set]
    returns an error, leaving the container as it was, exactly when the
    first token is not [variables]; the path of the single token
    [variables] is accepted, with no error and no write. *)
Theorem C5_set_format_error (v m : value) (path : string) :
  strings.Split path ≠ []
  ∧ ((∃ m' err, set v m path = Return (m', Some err))
     ↔ hd ""%string (strings.Split path) ≠ "variables"%string)
  ∧ (hd ""%string (strings.Split path) ≠ "variables"%string →
     set v m path
     = Return (m, Some "first part of path is supposed to be variables"%string))
  ∧ set v m "variables" = Return (m, None).
Proof.
  split; [apply Split_not_nil|].
  assert (Hfail : hd ""%string (strings.Split path) ≠ "variables"%string →
            set v m path
            = Return (m, Some "first part of path is supposed to be variables"%string)).
  { intros Hhd. pose proof (Split_not_nil path) as Hne.
    destruct (strings.Split path) as [|tok toks] eqn:Hsplit; [done|].
    rewrite (set_parts v m path (parse_part tok) (map parse_part toks))
      by (unfold parse_parts; by rewrite Hsplit).
    destruct (part_neq_string (parse_part tok) "variables") eqn:Hchk; [done|].
    apply first_part_check in Hchk. done. }
  split; [split|split; [done|]].
  - intros (m' & err & Hset) Hhd.
    pose proof (Split_not_nil path) as Hne.
    destruct (strings.Split path) as [|tok toks] eqn:Hsplit; [done|].
    simpl in Hhd. subst tok.
    rewrite (set_parts v m path (PString "variables") (map parse_part toks))
      in Hset by (unfold parse_parts; by rewrite Hsplit).
    cbn [part_neq_string String.eqb Ascii.eqb Bool.eqb negb] in Hset.
    by destruct (place v (map parse_part toks) m).
  - intros Hhd. eauto.
  - by rewrite (set_parts v m "variables" (PString "variables") []).
Qed.

(* ===================================================================== *)
(** ** The context key *)
(* ===================================================================== *)

(** C10: [GetGinContext] is a function on every context (there is no
    panic in its result type).  It returns the handle bound to the
    reserved key, so it returns what [GinContextProvider] injected; when
    the key is unbound or bound to a value of another type it returns the
    nil pointer. *)
Theorem C10_GetGinContext_total (ctx : context.Context) :
  (∀ c, context.Value ctx (context.KString GinContextKey) = AGinContext c →
        GetGinContext ctx = c)
  ∧ (∀ c, GetGinContext (GinContextProvider c ctx) = c)
  ∧ ((∀ c, context.Value ctx (context.KString GinContextKey) ≠ AGinContext c) →
     GetGinContext ctx = None).
Proof.
  unfold GetGinContext. split; [|split].
  - by intros c ->.
  - intros c. unfold GinContextProvider. cbn [context.Value].
    by rewrite decide_True.
  - intros Hother.
    destruct (context.Value ctx (context.KString GinContextKey)) eqn:Hval;
      try done.
    by destruct (Hother c).
Qed.

(* ===================================================================== *)
(** ** The handler *)
(* ===================================================================== *)

Lemma response_of_app (evs evs' : list event) :
  response_of (evs ++ evs') = fold_left write_event evs' (response_of evs).
Proof. unfold response_of. apply fold_left_app. Qed.

Lemma write_providers (w : Response) (l : list nat) :
  fold_left write_event (map EvProvider l) w = w.
Proof. induction l as [|i l IH]; [done|]. simpl. rewrite IH. by destruct w. Qed.

Lemma run_providers_app (ps qs : list ContextProviderFn) (c : gin.Context) :
  run_providers (ps ++ qs) c
  = fold_left (fun ctx provider => provider (Some c) ctx) qs (run_providers ps c).
Proof. unfold run_providers. apply fold_left_app. Qed.

Lemma length_pos_nonempty (s : string) :
  (0 <? String.length s)%nat = true ↔ s ≠ ""%string.
Proof. destruct s; simpl; [split; [discriminate|done]|done]. Qed.

Lemma set_paths_events (v : value) (paths : list string) :
  ∀ m, Forall (fun e => is_EvSet e = true) (fst (set_paths v paths m)).
Proof.
  induction paths as [|path paths' IH]; intros m; simpl; [constructor|].
  destruct (set v m path) as [[m' [err|]]|p]; simpl;
    [by repeat constructor| |by repeat constructor].
  specialize (IH m'). destruct (set_paths v paths' m') as [evs r].
  by constructor.
Qed.

Lemma set_entries_events {K : Type} (inj : K → value)
    (todo : list (K * list string)) :
  ∀ m, Forall (fun e => is_EvSet e = true) (fst (set_entries inj todo m)).
Proof.
  induction todo as [|[k paths] todo' IH]; intros m; simpl; [constructor|].
  pose proof (set_paths_events (inj k) paths m) as Hpaths.
  destruct (set_paths (inj k) paths m) as [evs [m'| |]]; simpl in *; try done.
  specialize (IH m'). destruct (set_entries inj todo' m') as [evs' r].
  simpl in *. by apply Forall_app.
Qed.

Section HandlerFacts.

Variable Unmarshal_params : string → GraphQLRequestParams * option error.
Variable Unmarshal_map : string → gmap string (list string) * option error.
Variable range_s : gmap string (list string) → list (string * list string).
Variable range_p :
  gmap FileHeaderPtr (list string) → list (FileHeaderPtr * list string).
Variable Do : graphql.Params → graphql.Result.

(** A [range] loop visits every entry of the map once. *)
Hypothesis range_s_perm : ∀ m, range_s m ≡ₚ map_to_list m.
Hypothesis range_p_perm : ∀ m, range_p m ≡ₚ map_to_list m.

Local Notation assemble_ :=
  (assemble Unmarshal_params Unmarshal_map range_s range_p).
Local Notation serve_ :=
  (serve Unmarshal_params Unmarshal_map range_s range_p Do).

(** The events of a request that goes to the engine with the providers
    of [app]. *)
Local Notation engine_events app c req :=
  (map EvProvider (seq 0 (length (ContextProviders app)))
   ++ [EvDo (params_of app req (run_providers (ContextProviders app) c));
       EvJSON http.StatusOK
         (BodyResult
            (Do (params_of app req (run_providers (ContextProviders app) c))))]).

Lemma assemble_bypass (c : gin.Context) (req : GraphQLRequest) :
  MapString req = ""%string ∨ OperationsString req = ""%string →
  assemble_ c req = ([], AsmOk req).
Proof. unfold assemble. intros [-> | ->]; [done|]. by rewrite andb_false_r. Qed.

Lemma assemble_events (c : gin.Context) (req : GraphQLRequest) :
  Forall (fun e => is_EvSet e = true) (fst (assemble_ c req)).
Proof.
  unfold assemble.
  destruct (_ && _); [|constructor].
  destruct (Unmarshal_params _) as [ops [err|]]; [constructor|].
  destruct (Unmarshal_map _) as [vm [err|]]; [constructor|].
  destruct (collect _ _ _ _) as [err|[uploads variables]]; [constructor|].
  pose proof (set_entries_events VString (range_s variables)
                (to_interface (VariableValues ops))) as H1.
  destruct (set_entries VString _ _) as [evs [m1| |]]; simpl in *; try done.
  pose proof (set_entries_events VFile (range_p uploads) m1) as H2.
  destruct (set_entries VFile _ _) as [evs' [m2| |]]; simpl in *;
    by apply Forall_app.
Qed.

(** Without both upload fields the closure goes straight to the
    providers and the engine. *)
Lemma serve_bypass (app : GraphQLApp) (c : gin.Context)
    (req : GraphQLRequest) (berr : option error) :
  gin.ShouldBind c = (req, berr) →
  MapString req = ""%string ∨ OperationsString req = ""%string →
  serve_ app c = (bind_events berr ++ engine_events app c req, Finished).
Proof.
  intros Hbind Habsent. unfold serve. rewrite Hbind.
  by rewrite (assemble_bypass c req Habsent).
Qed.

(** A request ends in one of three ways: a reply of the handler's own and
    no engine call, a panic and no engine call, or the engine's reply. *)
Lemma serve_cases (app : GraphQLApp) (c : gin.Context) :
  (Forall (fun e => is_EvDo e = false) (fst (serve_ app c)))
  ∨ (snd (serve_ app c) = Finished
     ∧ Forall (fun e => is_error_reply e = false) (fst (serve_ app c))).
Proof.
  unfold serve. destruct (gin.ShouldBind c) as [req berr].
  pose proof (assemble_events c req) as Hevs.
  assert (Hbound_do : Forall (fun e => is_EvDo e = false) (bind_events berr))
    by (destruct berr; by repeat constructor).
  assert (Hbound_rep :
            Forall (fun e => is_error_reply e = false) (bind_events berr))
    by (destruct berr; by repeat constructor).
  assert (Hset_do : ∀ evs, Forall (fun e => is_EvSet e = true) evs →
                           Forall (fun e => is_EvDo e = false) evs).
  { intros evs Hall. eapply Forall_impl; [exact Hall|]. by intros []. }
  assert (Hset_rep : ∀ evs, Forall (fun e => is_EvSet e = true) evs →
                            Forall (fun e => is_error_reply e = false) evs).
  { intros evs Hall. eapply Forall_impl; [exact Hall|]. by intros []. }
  destruct (assemble_ c req) as [evs [req'|message err|p]]; simpl in *.
  - right. split; [done|]. rewrite !Forall_app.
    split; [done|]. split; [auto|]. split; [|by repeat constructor].
    apply Forall_forall. intros e He.
    apply list_elem_of_fmap in He as (i & Heq & _). by subst e.
  - left. rewrite !Forall_app. repeat split; auto.
  - left. rewrite !Forall_app. split; auto.
Qed.

(** An entry whose field is neither a text field nor a file stops the
    collecting loop. *)
Lemma collect_missing (c : gin.Context) (todo : list (string * list string))
    (key : string) (paths : list string) :
  (key, paths) ∈ todo →
  gin.GetPostForm c key = None →
  snd (gin.FormFile c key) ≠ None →
  ∀ uploads variables, ∃ err, collect c todo uploads variables = inl err.
Proof.
  intros Hin Hform Hfile.
  induction todo as [|[key' path'] todo' IH]; [by apply elem_of_nil in Hin|].
  intros uploads variables.
  apply elem_of_cons in Hin as [Heq|Hin].
  - injection Heq as <- <-. simpl. rewrite Hform.
    destruct (gin.FormFile c key) as [[fh|] [err|]]; simpl in *;
      try done; by exists err.
  - simpl. destruct (gin.GetPostForm c key'); [by apply IH|].
    destruct (gin.FormFile c key') as [[fh|] [err|]]; eauto.
Qed.

(** C9: when the operations field or the map field is absent (the bound
    string is empty), no call of [set] is made and the engine gets the
    query, the operation name and the variables exactly as they were
    bound. *)
Theorem C9_bypass_without_upload_fields (app : GraphQLApp) (c : gin.Context)
    (req : GraphQLRequest) (berr : option error) :
  gin.ShouldBind c = (req, berr) →
  OperationsString req = ""%string ∨ MapString req = ""%string →
  let params := params_of app req (run_providers (ContextProviders app) c) in
  serve_ app c
  = (bind_events berr
       ++ map EvProvider (seq 0 (length (ContextProviders app)))
       ++ [EvDo params; EvJSON http.StatusOK (BodyResult (Do params))],
     Finished)
  ∧ graphql.PRequestString params = RequestString (Basic req)
  ∧ graphql.POperationName params = OperationName (Basic req)
  ∧ graphql.PVariableValues params = VariableValues (Basic req)
  ∧ Forall (fun e => is_EvSet e = false) (fst (serve_ app c)).
Proof.
  intros Hbind Habsent params.
  assert (Hserve := serve_bypass app c req berr Hbind
                      (proj1 (or_comm _ _) Habsent)).
  rewrite Hserve. repeat split.
  simpl. rewrite !Forall_app. repeat split.
  - destruct berr; by repeat constructor.
  - apply Forall_forall. intros e He.
    apply list_elem_of_fmap in He as (i & Heq & _). by subst e.
  - by repeat constructor.
Qed.

(** C7, on the code: when the bind fails (and no upload fields were
    bound) the closure reports the error with status 500 and goes on: it
    runs every provider, calls the engine and writes the engine's result
    after the status line. *)
Theorem C7_bind_failure_reaches_engine (app : GraphQLApp) (c : gin.Context)
    (req : GraphQLRequest) (err : error) :
  gin.ShouldBind c = (req, Some err) →
  OperationsString req = ""%string ∨ MapString req = ""%string →
  let params := params_of app req (run_providers (ContextProviders app) c) in
  serve_ app c
  = (EvAbortWithError http.StatusInternalServerError err
       :: map EvProvider (seq 0 (length (ContextProviders app)))
       ++ [EvDo params; EvJSON http.StatusOK (BodyResult (Do params))],
     Finished)
  ∧ response_of (fst (serve_ app c))
    = {| wire_status := Some http.StatusInternalServerError;
         wire_body := [BodyResult (Do params)] |}.
Proof.
  intros Hbind Habsent params.
  assert (Hserve := serve_bypass app c req (Some err) Hbind
                      (proj1 (or_comm _ _) Habsent)).
  rewrite Hserve. split; [done|].
  cbn [fst bind_events]. unfold response_of.
  by rewrite !fold_left_app, write_providers.
Qed.

(** C8, as amended: when both upload fields are present and the
    operations text or the map text does not decode, the closure makes no
    call of [set] and no call of the engine; it replies through [c.JSON]
    with the success status and the error envelope that carries the
    message and the decoder's error.  That status is what the client sees
    when the bind had succeeded. *)
Theorem C8_malformed_json_reply (app : GraphQLApp) (c : gin.Context)
    (req : GraphQLRequest) (berr : option error) :
  gin.ShouldBind c = (req, berr) →
  OperationsString req ≠ ""%string →
  MapString req ≠ ""%string →
  snd (Unmarshal_params (OperationsString req)) ≠ None
  ∨ snd (Unmarshal_map (MapString req)) ≠ None →
  ∃ message err,
    ((message = "invalid operations string"%string
      ∧ snd (Unmarshal_params (OperationsString req)) = Some err)
     ∨ (message = "invalid map string"%string
        ∧ snd (Unmarshal_params (OperationsString req)) = None
        ∧ snd (Unmarshal_map (MapString req)) = Some err))
    ∧ serve_ app c
      = (bind_events berr
           ++ [EvJSON http.StatusOK (BodyValue (graphqlErrorReply message err))],
         Finished)
    ∧ (berr = None →
       response_of (fst (serve_ app c))
       = {| wire_status := Some http.StatusOK;
            wire_body := [BodyValue (graphqlErrorReply message err)] |}).
Proof.
  intros Hbind Hops%length_pos_nonempty Hmap%length_pos_nonempty Hbad.
  unfold serve, assemble. rewrite Hbind, Hops, Hmap. cbn [andb].
  destruct (Unmarshal_params (OperationsString req)) as [ops [err|]].
  - exists "invalid operations string"%string, err.
    split; [by left|]. split; [done|]. by intros ->.
  - destruct Hbad as [Hbad|Hbad]; [done|].
    destruct (Unmarshal_map (MapString req)) as [vm [err|]]; [|done].
    exists "invalid map string"%string, err.
    split; [by right|]. split; [done|]. by intros ->.
Qed.

(** C4: when the upload map names a form field that is neither a text
    field nor a file part ([c.GetPostForm] finds nothing and [c.FormFile]
    returns its error), the closure replies with the error envelope of the
    failed upload, having made no call of [set] and no call of the engine.
    In every request, a reply of the handler's own or a panic excludes a
    call of the engine: what the calls of [set] had written so far is
    dropped with the request. *)
Theorem C4_missing_field_aborts (app : GraphQLApp) (c : gin.Context)
    (req : GraphQLRequest) (berr : option error)
    (ops : GraphQLRequestParams) (vm : gmap string (list string))
    (key : string) (paths : list string) :
  gin.ShouldBind c = (req, berr) →
  OperationsString req ≠ ""%string →
  MapString req ≠ ""%string →
  Unmarshal_params (OperationsString req) = (ops, None) →
  Unmarshal_map (MapString req) = (vm, None) →
  vm !! key = Some paths →
  gin.GetPostForm c key = None →
  snd (gin.FormFile c key) ≠ None →
  (∃ err,
     serve_ app c
     = (bind_events berr
          ++ [EvJSON http.StatusOK
                (BodyValue (graphqlErrorReply "invalid file upload" err))],
        Finished))
  ∧ (∀ app' c',
       (snd (serve_ app' c') ≠ Finished
        ∨ Exists (fun e => is_error_reply e = true) (fst (serve_ app' c'))) →
       Forall (fun e => is_EvDo e = false) (fst (serve_ app' c'))).
Proof.
  intros Hbind Hops%length_pos_nonempty Hmap%length_pos_nonempty
         Hdec_ops Hdec_map Hkey Hform Hfile.
  split.
  - assert (Hin : (key, paths) ∈ range_s vm).
    { rewrite (range_s_perm vm). by apply elem_of_map_to_list. }
    destruct (collect_missing c (range_s vm) key paths Hin Hform Hfile ∅ ∅)
      as [err Hcollect].
    exists err. unfold serve, assemble.
    rewrite Hbind, Hops, Hmap, Hdec_ops, Hdec_map, Hcollect. done.
  - intros app' c' Hfail.
    destruct (serve_cases app' c') as [Hno|[Hfin Hrep]]; [done|].
    destruct Hfail as [Hpanic|Hreply]; [done|].
    apply Exists_exists in Hreply as (e & He & Htrue).
    rewrite Forall_forall in Hrep. specialize (Hrep e He). congruence.
Qed.

Lemma filter_providers (l : list nat) :
  filter (fun e => is_EvProvider e) (map EvProvider l) = map EvProvider l.
Proof.
  induction l as [|i l IH]; [done|].
  cbn [map]. rewrite filter_cons_True by done. by rewrite IH.
Qed.

(** The order of a loop over a map with one entry, or with none. *)
Lemma range_s_singleton (k : string) (paths : list string) :
  range_s {[ k := paths ]} = [(k, paths)].
Proof.
  apply Permutation_singleton_r.
  by rewrite range_s_perm, map_to_list_singleton.
Qed.

Lemma range_p_empty : range_p ∅ = [].
Proof. apply Permutation_nil_r. by rewrite range_p_perm, map_to_list_empty. Qed.

(** C3, on the code: two text fields [a] and [b] with the same value,
    mapped to the variables [x] and [y].  The handler keys the text
    assignments by the value, so the second field replaces the paths of
    the first: in every iteration order exactly one call of [set] is made,
    and the engine gets the variables with [x] or [y] still nil. *)
Theorem C3_equal_text_values_collide (app : GraphQLApp) (c : gin.Context)
    (req : GraphQLRequest) (ops : GraphQLRequestParams) :
  gin.ShouldBind c = (req, None) →
  OperationsString req ≠ ""%string →
  MapString req ≠ ""%string →
  Unmarshal_params (OperationsString req) = (ops, None) →
  VariableValues ops = Some Sample.vars_xy →
  Unmarshal_map (MapString req) = (Sample.map_ab, None) →
  gin.GetPostForm c "a" = Some "1"%string →
  gin.GetPostForm c "b" = Some "1"%string →
  ∃ path params,
    serve_ app c
    = (EvSet (VString "1") path
         :: map EvProvider (seq 0 (length (ContextProviders app)))
         ++ [EvDo params; EvJSON http.StatusOK (BodyResult (Do params))],
       Finished)
    ∧ ((path = "variables.x"%string
        ∧ variable_of params "x" = Some (VString "1")
        ∧ variable_of params "y" = Some VNil)
       ∨ (path = "variables.y"%string
          ∧ variable_of params "y" = Some (VString "1")
          ∧ variable_of params "x" = Some VNil)).
Proof.
  intros Hbind Hops%length_pos_nonempty Hmap%length_pos_nonempty
         Hdec_ops Hvars Hdec_map Ha Hb.
  unfold serve, assemble.
  rewrite Hbind, Hops, Hmap, Hdec_ops, Hdec_map, Hvars. cbn [andb].
  assert (Hlist : map_to_list Sample.map_ab
                  = [("a", ["variables.x"]); ("b", ["variables.y"])]%string)
    by (by vm_compute).
  pose proof (range_s_perm Sample.map_ab) as Hperm. rewrite Hlist in Hperm.
  symmetry in Hperm. apply Permutation_length_2_inv in Hperm as [-> | ->];
    cbn [collect]; rewrite Ha, Hb, insert_insert_eq, insert_empty,
      range_s_singleton, range_p_empty.
  - exists "variables.y"%string.
    assert (Hsets :
      set_entries VString [("1"%string, ["variables.y"%string])]
                  (to_interface (Some Sample.vars_xy))
      = ([EvSet (VString "1") "variables.y"],
         SetsDone (VMap (<["y" := VString "1"]> Sample.vars_xy))))
      by (by vm_compute).
    rewrite Hsets. cbn [set_entries bind_events Datatypes.app].
    eexists. split; [reflexivity|]. right. by vm_compute.
  - exists "variables.x"%string.
    assert (Hsets :
      set_entries VString [("1"%string, ["variables.x"%string])]
                  (to_interface (Some Sample.vars_xy))
      = ([EvSet (VString "1") "variables.x"],
         SetsDone (VMap (<["x" := VString "1"]> Sample.vars_xy))))
      by (by vm_compute).
    rewrite Hsets. cbn [set_entries bind_events Datatypes.app].
    eexists. split; [reflexivity|]. left. by vm_compute.
Qed.

(** C6, on the code: [Handler] appends to the provider list of the shared
    application object.  After one registration the list is the implicit
    provider, then those of [New], then those of [Handler], and a request
    folds them in that order.  After a second registration with the same
    providers (the second route of [setupRouter]) the list holds them
    twice, and every request of either route runs them twice: a provider
    that counts its runs sees 2. *)
Theorem C6_second_registration_repeats_providers (schema : graphql.Schema)
    (cps hps : list ContextProviderFn) (c : gin.Context)
    (req : GraphQLRequest) (berr : option error) :
  gin.ShouldBind c = (req, berr) →
  OperationsString req = ""%string ∨ MapString req = ""%string →
  let register := Handler Unmarshal_params Unmarshal_map range_s range_p Do in
  let app1 := fst (register (New schema cps) hps) in
  let handler1 := snd (register (New schema cps) hps) in
  let app2 := fst (register app1 hps) in
  ContextProviders app1 = GinContextProvider :: cps ++ hps
  ∧ ContextProviders app2 = GinContextProvider :: cps ++ hps ++ hps
  ∧ (∃ params,
       In (EvDo params) (fst (handler1 app1 c))
       ∧ graphql.PContext params
         = fold_left (fun ctx provider => provider (Some c) ctx)
                     (cps ++ hps)
                     (GinContextProvider (Some c) context.Background))
  ∧ (∃ params,
       In (EvDo params) (fst (handler1 app2 c))
       ∧ graphql.PContext params
         = fold_left (fun ctx provider => provider (Some c) ctx)
                     (cps ++ hps ++ hps)
                     (GinContextProvider (Some c) context.Background)
       ∧ filter (fun e => is_EvProvider e) (fst (handler1 app2 c))
         = map EvProvider (seq 0 (1 + length cps + 2 * length hps)))
  ∧ (cps = [] → hps = [Sample.count_runs] →
     context.Value (run_providers (ContextProviders app2) c)
                   (context.KString "runs") = AInt 2
     ∧ context.Value (run_providers (GinContextProvider :: cps ++ hps) c)
                     (context.KString "runs") = AInt 1).
Proof.
  intros Hbind Habsent register app1 handler1 app2.
  assert (Habsent' := proj1 (or_comm _ _) Habsent).
  assert (H1 : ContextProviders app1 = GinContextProvider :: cps ++ hps)
    by done.
  assert (H2 : ContextProviders app2 = GinContextProvider :: cps ++ hps ++ hps).
  { subst app2 app1 register.
    cbn [Handler New fst ContextProviders Datatypes.app].
    by rewrite <- app_assoc. }
  split; [done|]. split; [done|].
  subst handler1 register. cbn [Handler snd].
  rewrite (serve_bypass app1 c req berr Hbind Habsent').
  rewrite (serve_bypass app2 c req berr Hbind Habsent').
  cbn [fst]. rewrite H1, H2. split; [|split].
  - eexists. split.
    + rewrite !in_app_iff. right. right. left. reflexivity.
    + reflexivity.
  - eexists. split; [|split].
    + rewrite !in_app_iff. right. right. left. reflexivity.
    + reflexivity.
    + rewrite !filter_app, filter_providers.
      assert (Hb : filter (fun e => is_EvProvider e) (bind_events berr) = [])
        by (by destruct berr).
      rewrite Hb. cbn [Datatypes.app].
      rewrite filter_cons_False, filter_cons_False, filter_nil, app_nil_r
        by (by intros []).
      do 2 f_equal. cbn [length]. rewrite !length_app. lia.
  - intros -> ->. split; reflexivity.
Qed.

End HandlerFacts.

(* ===================================================================== *)
(** ** The claims on the sample requests *)
(* ===================================================================== *)

Lemma C1_witness :
  strings.Split "variables.files.name" = ["variables"; "files"; "name"]%string
  ∧ set (VFile 1%positive) (VMap Sample.vars_files) "variables.files.name"
    = Panic PanicTypeAssertion.
Proof.
  split; [reflexivity|].
  apply (C1_shape_mismatch_panics (VFile 1%positive) (VMap Sample.vars_files)
           "variables.files.name" ["files"; "name"]%string);
    reflexivity.
Defined.

Lemma C3_witness :
  ∃ path params,
    serve Sample.Unmarshal_params Sample.Unmarshal_map Sample.range_s
          Sample.range_p Sample.Do (New Sample.empty_schema [])
          Sample.c_equal_values
    = ([EvSet (VString "1") path; EvProvider 0; EvDo params;
        EvJSON http.StatusOK (BodyResult (Sample.Do params))], Finished)
    ∧ ((path = "variables.x"%string
        ∧ variable_of params "x" = Some (VString "1")
        ∧ variable_of params "y" = Some VNil)
       ∨ (path = "variables.y"%string
          ∧ variable_of params "y" = Some (VString "1")
          ∧ variable_of params "x" = Some VNil)).
Proof.
  apply (C3_equal_text_values_collide
           Sample.Unmarshal_params Sample.Unmarshal_map Sample.range_s
           Sample.range_p Sample.Do
           (fun m => Permutation_refl _) (fun m => Permutation_refl _)
           (New Sample.empty_schema []) Sample.c_equal_values
           (fst (gin.ShouldBind Sample.c_equal_values)) Sample.operations_xy);
    first [reflexivity | discriminate].
Defined.

Lemma C4_witness :
  ∃ err,
    serve Sample.Unmarshal_params Sample.Unmarshal_map Sample.range_s
          Sample.range_p Sample.Do (New Sample.empty_schema [])
          Sample.c_missing_file
    = ([EvJSON http.StatusOK
          (BodyValue (graphqlErrorReply "invalid file upload" err))],
       Finished).
Proof.
  apply (C4_missing_field_aborts
           Sample.Unmarshal_params Sample.Unmarshal_map Sample.range_s
           Sample.range_p Sample.Do (fun m => Permutation_refl _)
           (New Sample.empty_schema []) Sample.c_missing_file
           (fst (gin.ShouldBind Sample.c_missing_file)) None
           Sample.operations_file Sample.map_file
           "file"%string ["variables.file"%string]);
    first [reflexivity | discriminate].
Defined.

Lemma C6_witness :
  let register :=
    Handler Sample.Unmarshal_params Sample.Unmarshal_map Sample.range_s
            Sample.range_p Sample.Do in
  let app1 := fst (register (New Sample.empty_schema []) [Sample.count_runs]) in
  let app2 := fst (register app1 [Sample.count_runs]) in
  context.Value (run_providers (ContextProviders app2) Sample.c_plain)
                (context.KString "runs") = AInt 2
  ∧ context.Value
      (run_providers (GinContextProvider :: [] ++ [Sample.count_runs])
                     Sample.c_plain)
      (context.KString "runs") = AInt 1.
Proof.
  apply (C6_second_registration_repeats_providers
           Sample.Unmarshal_params Sample.Unmarshal_map Sample.range_s
           Sample.range_p Sample.Do Sample.empty_schema []
           [Sample.count_runs] Sample.c_plain
           (fst (gin.ShouldBind Sample.c_plain)) None
           eq_refl (or_introl eq_refl));
    reflexivity.
Defined.

Lemma C7_witness :
  let app := New Sample.empty_schema [] in
  let params :=
    params_of app Sample.zero_request
              (run_providers (ContextProviders app) Sample.c_bad_body) in
  serve Sample.Unmarshal_params Sample.Unmarshal_map Sample.range_s
        Sample.range_p Sample.Do app Sample.c_bad_body
  = ([EvAbortWithError http.StatusInternalServerError "unexpected EOF";
      EvProvider 0; EvDo params;
      EvJSON http.StatusOK (BodyResult (Sample.Do params))], Finished).
Proof.
  intros app params.
  apply (C7_bind_failure_reaches_engine
           Sample.Unmarshal_params Sample.Unmarshal_map Sample.range_s
           Sample.range_p Sample.Do app Sample.c_bad_body
           Sample.zero_request "unexpected EOF"%string
           eq_refl (or_introl eq_refl)).
Defined.

Lemma C8_witness :
  ∃ message err,
    serve Sample.Unmarshal_params Sample.Unmarshal_map Sample.range_s
          Sample.range_p Sample.Do (New Sample.empty_schema [])
          Sample.c_both_malformed
    = ([EvJSON http.StatusOK (BodyValue (graphqlErrorReply message err))],
       Finished).
Proof.
  destruct (C8_malformed_json_reply
              Sample.Unmarshal_params Sample.Unmarshal_map Sample.range_s
              Sample.range_p Sample.Do (New Sample.empty_schema [])
              Sample.c_both_malformed
              (fst (gin.ShouldBind Sample.c_both_malformed)) None eq_refl)
    as (message & err & _ & Hserve & _).
  - discriminate.
  - discriminate.
  - left. discriminate.
  - by exists message, err.
Defined.

Lemma C9_witness :
  let app := New Sample.empty_schema [] in
  let req := fst (gin.ShouldBind Sample.c_plain) in
  let params :=
    params_of app req (run_providers (ContextProviders app) Sample.c_plain) in
  serve Sample.Unmarshal_params Sample.Unmarshal_map Sample.range_s
        Sample.range_p Sample.Do app Sample.c_plain
  = ([EvProvider 0; EvDo params;
      EvJSON http.StatusOK (BodyResult (Sample.Do params))], Finished)
  ∧ graphql.PVariableValues params = Some ∅.
Proof.
  intros app req params.
  destruct (C9_bypass_without_upload_fields
              Sample.Unmarshal_params Sample.Unmarshal_map Sample.range_s
              Sample.range_p Sample.Do app Sample.c_plain req None
              eq_refl (or_introl eq_refl))
    as (Hserve & _ & _ & Hvars & _).
  split; [exact Hserve | exact Hvars].
Defined.

(** The upload of one file, end to end: the engine gets the variables
    with the handle of the part under [file]. *)
Example serve_single_upload :
  match serve Sample.Unmarshal_params Sample.Unmarshal_map Sample.range_s
              Sample.range_p Sample.Do (New Sample.empty_schema [])
              Sample.c_single_file with
  | ([EvSet v path; EvProvider 0; EvDo params; EvJSON code (BodyResult r)],
     Finished) =>
      v = VFile 5%positive ∧ path = "variables.file"%string
      ∧ variable_of params "file" = Some (VFile 5%positive)
      ∧ code = http.StatusOK ∧ r = Sample.Do params
  | _ => False
  end.
Proof. by vm_compute. Qed.

(** C8, counterexample: the form holds the field [operations] with a text
    that does not decode, and no field [map].  The handler does not reply
    with an error envelope: it calls the engine with the basic
    parameters. *)
Lemma C8_counterexample :
  snd (Sample.Unmarshal_params
         (OperationsString (fst (gin.ShouldBind Sample.c_operations_only))))
  ≠ None
  ∧ (∃ params,
       In (EvDo params)
          (fst (serve Sample.Unmarshal_params Sample.Unmarshal_map
                      Sample.range_s Sample.range_p Sample.Do
                      (New Sample.empty_schema []) Sample.c_operations_only)))
  ∧ ¬ ∃ code v,
        In (EvJSON code (BodyValue v))
           (fst (serve Sample.Unmarshal_params Sample.Unmarshal_map
                       Sample.range_s Sample.range_p Sample.Do
                       (New Sample.empty_schema []) Sample.c_operations_only)).
Proof.
  split; [discriminate|].
  rewrite (serve_bypass Sample.Unmarshal_params Sample.Unmarshal_map
             Sample.range_s Sample.range_p Sample.Do
             (New Sample.empty_schema []) Sample.c_operations_only
             (fst (gin.ShouldBind Sample.c_operations_only)) None
             eq_refl (or_introl eq_refl)).
  split.
  - eexists. right. left. reflexivity.
  - intros (code & v & [Hin|[Hin|[Hin|[]]]]); discriminate Hin.
Qed.

(* ===================================================================== *)
(** ** What a successful [set] leaves behind *)
(* ===================================================================== *)

Lemma slice_index_element (elems : list value) (idx : Z) :
  slice_index (VSlice elems) idx
  = match element_at elems idx with
    | Some x => Return x
    | None => Panic PanicIndexOutOfRange
    end.
Proof.
  cbn [slice_index]. destruct (element_at elems idx) eqn:Hel.
  - apply element_at_Some in Hel as [-> ->]. done.
  - apply element_at_None in Hel as ->. done.
Qed.

Lemma slice_assign_element (elems : list value) (idx : Z) (v : value) :
  slice_assign (VSlice elems) idx v
  = match element_at elems idx with
    | Some _ => Return (VSlice (<[Z.to_nat idx := v]> elems))
    | None => Panic PanicIndexOutOfRange
    end.
Proof.
  cbn [slice_assign]. destruct (element_at elems idx) eqn:Hel.
  - apply element_at_Some in Hel as [-> _]. done.
  - apply element_at_None in Hel as ->. done.
Qed.

Lemma element_at_insert_eq (elems : list value) (idx : Z) (x y : value) :
  element_at elems idx = Some x →
  element_at (<[Z.to_nat idx := y]> elems) idx = Some y.
Proof.
  unfold element_at. destruct (idx <? 0); [done|].
  intros Hx%lookup_lt_Some. by apply list_lookup_insert_eq.
Qed.

Lemma element_at_insert_ne (elems : list value) (i j : Z) (x y : value) :
  element_at elems i = Some x → i ≠ j →
  element_at (<[Z.to_nat i := y]> elems) j = element_at elems j.
Proof.
  unfold element_at. destruct (Z.ltb_spec i 0); [done|].
  destruct (Z.ltb_spec j 0); [done|].
  intros _ Hne. apply list_lookup_insert_ne. lia.
Qed.

Lemma place_one (v : value) (p : part) (m : value) :
  place v [p] m
  = match p with
    | PString idx => map_assign m idx v
    | PInt idx => slice_assign m idx v
    end.
Proof. by destruct p. Qed.

(** What a successful walk must have met at its first segment. *)
Lemma place_string_inv (v : value) (k : string) (ps : list part)
    (m m' : value) :
  place v (PString k :: ps) m = Return m' →
  ∃ entries,
    m = VMap entries
    ∧ ((ps = [] ∧ m' = VMap (<[k := v]> entries))
       ∨ (ps ≠ [] ∧ ∃ child child',
            entries !! k = Some child
            ∧ place v ps child = Return child'
            ∧ m' = VMap (<[k := child']> entries))).
Proof.
  destruct ps as [|p' ps''].
  - rewrite place_one. destruct m; try done. intros [= <-]. eauto.
  - rewrite place_cons. destruct m; cbn [map_index result_bind]; try done.
    + destruct (entries !! k) as [child|] eqn:Hk; cbn [from_option id].
      * destruct (place v (p' :: ps'') child) as [child'|] eqn:Hc;
          cbn [result_bind map_writeback]; [|done].
        rewrite Hk. intros [= <-].
        exists entries. split; [done|]. right. split; [done|]. eauto.
      * by rewrite place_nil.
    + by rewrite place_nil.
Qed.

Lemma place_int_inv (v : value) (i : Z) (ps : list part) (m m' : value) :
  place v (PInt i :: ps) m = Return m' →
  ∃ elems x,
    m = VSlice elems ∧ element_at elems i = Some x
    ∧ ((ps = [] ∧ m' = VSlice (<[Z.to_nat i := v]> elems))
       ∨ (ps ≠ [] ∧ ∃ child',
            place v ps x = Return child'
            ∧ m' = VSlice (<[Z.to_nat i := child']> elems))).
Proof.
  destruct ps as [|p' ps''].
  - rewrite place_one. destruct m; try done.
    rewrite slice_assign_element.
    destruct (element_at elems i) as [x|] eqn:Hel; [|done].
    intros [= <-]. exists elems, x. eauto.
  - rewrite place_cons. destruct m; try done.
    rewrite slice_index_element.
    destruct (element_at elems i) as [x|] eqn:Hel; [|done].
    cbn [result_bind].
    destruct (place v (p' :: ps'') x) as [child'|] eqn:Hc;
      cbn [result_bind slice_writeback]; [|done].
    intros [= <-].
    exists elems, x. split; [done|]. split; [done|]. right. eauto.
Qed.

(** A walk that wrote a value ends where a reader of the same segments
    finds it. *)
Lemma place_walk (v : value) (ps : list part) :
  ∀ m m', ps ≠ [] → place v ps m = Return m' → walk ps m' = Some v.
Proof.
  induction ps as [|p ps' IH]; [done|]. intros m m' _ Hplace.
  destruct p as [i|k].
  - apply place_int_inv in Hplace
      as (elems & x & -> & Hel & [[-> ->]|(Hne & child' & Hc & ->)]);
      cbn [walk]; rewrite (element_at_insert_eq _ _ _ _ Hel); [done|].
    by apply (IH x).
  - apply place_string_inv in Hplace
      as (entries & -> & [[-> ->]|(Hne & child & child' & Hk & Hc & ->)]);
      cbn [walk]; rewrite lookup_insert_eq; [done|].
    by apply (IH child).
Qed.

Lemma part_eqb_eq (p q : part) : part_eqb p q = true ↔ p = q.
Proof.
  destruct p as [i|a], q as [j|b]; simpl; try (split; done).
  - rewrite Z.eqb_eq. split; congruence.
  - rewrite String.eqb_eq. split; congruence.
Qed.

(** Positions off the written path keep what they held. *)
Lemma place_frame (v : value) (ps : list part) :
  ∀ qs m m', place v ps m = Return m' → diverge ps qs = true →
             walk qs m' = walk qs m.
Proof.
  induction ps as [|p ps' IH]; [done|]. intros qs m m' Hplace Hdiv.
  destruct qs as [|q qs']; [done|]. cbn [diverge] in Hdiv. revert Hdiv.
  destruct (part_eqb p q) eqn:Hpq; intros Hdiv.
  - apply part_eqb_eq in Hpq as <-. destruct p as [i|k].
    + apply place_int_inv in Hplace
        as (elems & x & -> & Hel & [[-> ->]|(Hne & child' & Hc & ->)]);
        [done|].
      cbn [walk]. rewrite (element_at_insert_eq _ _ _ _ Hel), Hel.
      by apply (IH qs' x).
    + apply place_string_inv in Hplace
        as (entries & -> & [[-> ->]|(Hne & child & child' & Hk & Hc & ->)]);
        [done|].
      cbn [walk]. rewrite lookup_insert_eq, Hk. by apply (IH qs' child).
  - assert (Hneq : p ≠ q) by (intros Heq%part_eqb_eq; congruence).
    destruct p as [i|k].
    + apply place_int_inv in Hplace as (elems & x & -> & Hel & Hm').
      assert (Hm : ∃ y, m' = VSlice (<[Z.to_nat i := y]> elems))
        by (destruct Hm' as [[_ ->]|(_ & child' & _ & ->)]; eauto).
      destruct Hm as [y ->]. destruct q as [j|k']; [|done].
      cbn [walk]. rewrite (element_at_insert_ne _ _ _ _ _ Hel); [done|].
      congruence.
    + apply place_string_inv in Hplace as (entries & -> & Hm').
      assert (Hm : ∃ y, m' = VMap (<[k := y]> entries))
        by (destruct Hm' as [[_ ->]|(_ & child & child' & _ & _ & ->)]; eauto).
      destruct Hm as [y ->]. destruct q as [j|k']; [done|].
      cbn [walk]. rewrite lookup_insert_ne; [done|]. congruence.
Qed.

(** A second write at the same path replaces the first. *)
Lemma place_overwrite (v w : value) (ps : list part) :
  ∀ m m', place v ps m = Return m' → place w ps m' = place w ps m.
Proof.
  induction ps as [|p ps' IH]; [by intros m m' [= <-]|].
  intros m m' Hplace. destruct p as [i|k].
  - apply place_int_inv in Hplace
      as (elems & x & -> & Hel & [[-> ->]|(Hne & child' & Hc & ->)]).
    + rewrite !place_one, !slice_assign_element.
      rewrite (element_at_insert_eq _ _ _ _ Hel), Hel.
      by rewrite list_insert_insert_eq.
    + destruct ps' as [|p' ps'']; [done|]. rewrite !place_cons.
      rewrite !slice_index_element.
      rewrite (element_at_insert_eq _ _ _ _ Hel), Hel. cbn [result_bind].
      rewrite (IH x child' Hc).
      destruct (place w (p' :: ps'') x); cbn [result_bind slice_writeback];
        [|done].
      by rewrite list_insert_insert_eq.
  - apply place_string_inv in Hplace
      as (entries & -> & [[-> ->]|(Hne & child & child' & Hk & Hc & ->)]).
    + rewrite !place_one. cbn [map_assign]. by rewrite insert_insert_eq.
    + destruct ps' as [|p' ps'']; [done|]. rewrite !place_cons.
      cbn [map_index]. rewrite lookup_insert_eq, Hk. cbn [from_option id result_bind].
      rewrite (IH child child' Hc).
      destruct (place w (p' :: ps'') child);
        cbn [result_bind map_writeback]; [|done].
      by rewrite lookup_insert_eq, Hk, insert_insert_eq.
Qed.

Lemma diverge_sym (ps : list part) :
  ∀ qs, diverge ps qs = diverge qs ps.
Proof.
  induction ps as [|p ps' IH]; intros [|q qs']; try done.
  cbn [diverge]. destruct (part_eqb p q) eqn:Hpq.
  - apply part_eqb_eq in Hpq as <-.
    rewrite (proj2 (part_eqb_eq p p) eq_refl). apply IH.
  - destruct (part_eqb q p) eqn:Hqp; [|done].
    apply part_eqb_eq in Hqp as <-.
    by rewrite (proj2 (part_eqb_eq q q) eq_refl) in Hpq.
Qed.

(** The walk succeeds exactly on the positions that exist. *)
Lemma place_addressable (v : value) (ps : list part) :
  ∀ m, (∃ m', place v ps m = Return m') ↔ addressable ps m = true.
Proof.
  induction ps as [|p ps' IH]; intros m; [split; eauto|].
  destruct ps' as [|p' ps''].
  - rewrite place_one. destruct p as [i|k], m; cbn [addressable map_assign];
      try (split; [by intros [? ?]|done]).
    + rewrite slice_assign_element.
      destruct (element_at elems i);
        [split; eauto | split; [by intros [? ?]|done]].
    + split; eauto.
  - rewrite place_cons.
    change (addressable (p :: p' :: ps'') m) with
      (match p, m with
       | PString idx, VMap entries =>
           match entries !! idx with
           | Some child => addressable (p' :: ps'') child
           | None => false
           end
       | PInt idx, VSlice elems =>
           match element_at elems idx with
           | Some child => addressable (p' :: ps'') child
           | None => false
           end
       | _, _ => false
       end).
    destruct p as [i|k], m; cbn [map_index result_bind];
      try (split; [by intros [? ?]|done]).
    + rewrite slice_index_element.
      destruct (element_at elems i) as [x|]; cbn [result_bind];
        [|split; [by intros [? ?]|done]].
      rewrite <- IH. destruct (place v (p' :: ps'') x); cbn [result_bind];
        split; intros [? ?]; eauto; done.
    + destruct (entries !! k) as [child|]; cbn [from_option id].
      * rewrite <- IH. destruct (place v (p' :: ps'') child);
          cbn [result_bind]; split; intros [? ?]; eauto; done.
      * rewrite place_nil. split; [by intros [? ?]|done].
    + rewrite place_nil. split; [by intros [? ?]|done].
Qed.

(** The walk panics on an index exactly when an index segment lies
    outside the ordered container it meets. *)
Lemma place_index_out_of_range (v : value) (ps : list part) :
  ∀ m, place v ps m = Panic PanicIndexOutOfRange
       ↔ index_out_of_range ps m = true.
Proof.
  induction ps as [|p ps' IH]; intros m; [done|].
  destruct ps' as [|p' ps''].
  - rewrite place_one. destruct p as [i|k], m; try (by cbn).
    rewrite slice_assign_element. cbn [index_out_of_range].
    by destruct (element_at elems i).
  - rewrite place_cons.
    change (index_out_of_range (p :: p' :: ps'') m) with
      (match p with
       | PString idx =>
           match m with
           | VMap entries =>
               index_out_of_range (p' :: ps'') (default VNil (entries !! idx))
           | _ => false
           end
       | PInt idx =>
           match m with
           | VSlice elems =>
               match element_at elems idx with
               | Some x => index_out_of_range (p' :: ps'') x
               | None => true
               end
           | _ => false
           end
       end).
    destruct p as [i|k], m; try (by cbn).
    + rewrite slice_index_element.
      destruct (element_at elems i) as [x|]; cbn [result_bind]; [|done].
      by rewrite place_panic_bind, IH.
    + cbn [map_index result_bind]. by rewrite place_panic_bind, IH.
    + cbn [map_index result_bind]. by rewrite place_nil.
Qed.

(** A write leaves the positions off its path addressable or not, as they
    were. *)
Lemma place_addressable_frame (v : value) (ps : list part) :
  ∀ qs m m', place v ps m = Return m' → diverge ps qs = true →
             addressable qs m' = addressable qs m.
Proof.
  induction ps as [|p ps' IH]; [done|]. intros qs m m' Hplace Hdiv.
  destruct qs as [|q qs']; [done|]. cbn [diverge] in Hdiv. revert Hdiv.
  destruct (part_eqb p q) eqn:Hpq; intros Hdiv.
  - apply part_eqb_eq in Hpq as <-.
    destruct qs' as [|q' qs'']; [by destruct ps'|]. destruct p as [i|k].
    + apply place_int_inv in Hplace
        as (elems & x & -> & Hel & [[-> ->]|(Hne & child' & Hc & ->)]);
        [done|].
      cbn [addressable]. rewrite (element_at_insert_eq _ _ _ _ Hel), Hel.
      by apply (IH (q' :: qs'') x).
    + apply place_string_inv in Hplace
        as (entries & -> & [[-> ->]|(Hne & child & child' & Hk & Hc & ->)]);
        [done|].
      cbn [addressable]. rewrite lookup_insert_eq, Hk.
      by apply (IH (q' :: qs'') child).
  - assert (Hneq : p ≠ q) by (intros Heq%part_eqb_eq; congruence).
    destruct p as [i|k].
    + apply place_int_inv in Hplace as (elems & x & -> & Hel & Hm').
      assert (Hm : ∃ y, m' = VSlice (<[Z.to_nat i := y]> elems))
        by (destruct Hm' as [[_ ->]|(_ & child' & _ & ->)]; eauto).
      destruct Hm as [y ->]. destruct q as [j|k'].
      * assert (Hij : i ≠ j) by congruence.
        destruct qs'; cbn [addressable];
          by rewrite (element_at_insert_ne _ _ _ _ _ Hel Hij).
      * by destruct qs'.
    + apply place_string_inv in Hplace as (entries & -> & Hm').
      assert (Hm : ∃ y, m' = VMap (<[k := y]> entries))
        by (destruct Hm' as [[_ ->]|(_ & child & child' & _ & _ & ->)]; eauto).
      destruct Hm as [y ->]. destruct q as [j|k'].
      * by destruct qs'.
      * assert (Hkk : k ≠ k') by congruence.
        destruct qs'; cbn [addressable]; [done|].
        by rewrite lookup_insert_ne.
Qed.

Lemma diverge_irrefl (ps : list part) : diverge ps ps = false.
Proof.
  induction ps as [|p ps' IH]; [done|]. cbn [diverge].
  by rewrite (proj2 (part_eqb_eq p p) eq_refl).
Qed.

Lemma place_all_app (l1 l2 : list (value * list part)) :
  ∀ m, place_all (l1 ++ l2) m
       = let* m1 := place_all l1 m in place_all l2 m1.
Proof.
  induction l1 as [|[v ps] l1' IH]; intros m; [done|].
  cbn [place_all app]. destruct (place v ps m); cbn [result_bind]; [|done].
  apply IH.
Qed.

(** A series of writes at positions that exist and that part ways two by
    two (or are the same position with the same value): every write
    succeeds, every position holds its value at the end, and whatever
    lies off all the paths is as before. *)
Lemma place_all_spec (todo : list (value * list part)) :
  ∀ m,
    (∀ v ps, (v, ps) ∈ todo → ps ≠ [] ∧ addressable ps m = true) →
    (∀ v1 ps1 v2 ps2, (v1, ps1) ∈ todo → (v2, ps2) ∈ todo →
                      (ps1 = ps2 ∧ v1 = v2) ∨ diverge ps1 ps2 = true) →
    ∃ m',
      place_all todo m = Return m'
      ∧ (∀ v ps, (v, ps) ∈ todo → walk ps m' = Some v)
      ∧ (∀ qs, (∀ v ps, (v, ps) ∈ todo → diverge ps qs = true) →
               walk qs m' = walk qs m
               ∧ addressable qs m' = addressable qs m).
Proof.
  induction todo as [|[v0 ps0] todo' IH]; intros m Haddr Hcompat.
  { exists m. split; [done|]. split; [|done].
    intros v ps Hin. by apply elem_of_nil in Hin. }
  destruct (Haddr v0 ps0) as [Hne0 Ha0]; [by left|].
  apply (place_addressable v0) in Ha0 as [m1 H1].
  destruct (IH m1) as (m' & Hall & Hread & Hframe).
  { intros v ps Hin. destruct (Haddr v ps) as [Hne Ha]; [by right|].
    split; [done|].
    destruct (Hcompat v0 ps0 v ps) as [[<- _]|Hdiv]; [by left|by right| |].
    - apply (place_addressable v0). exists m1.
      by rewrite (place_overwrite v0 v0 ps0 m m1 H1).
    - by rewrite (place_addressable_frame v0 ps0 ps m m1 H1 Hdiv). }
  { intros v1 ps1 v2 ps2 Hin1 Hin2. apply Hcompat; by right. }
  exists m'. split; [cbn [place_all]; by rewrite H1|]. split.
  - intros v ps [Heq|Hin]%elem_of_cons; [|by apply Hread].
    injection Heq as -> ->.
    destruct (decide (ps0 ∈ todo'.*2)) as [Hdup|Hfresh].
    + apply list_elem_of_fmap in Hdup as ([v' ps'] & Hps & Hin').
      cbn in Hps. subst ps'.
      destruct (Hcompat v0 ps0 v' ps0) as [[_ ->]|Hdiv];
        [by left|by right|by apply Hread|].
      by rewrite diverge_irrefl in Hdiv.
    + destruct (Hframe ps0) as [-> _]; [|by apply (place_walk v0 ps0 m)].
      intros v ps Hin. rewrite diverge_sym.
      destruct (Hcompat v0 ps0 v ps) as [[<- _]|Hdiv];
        [by left|by right| |done].
      destruct Hfresh. apply list_elem_of_fmap. by exists (v, ps0).
  - intros qs Hqs. destruct (Hframe qs) as [-> ->].
    { intros v ps Hin. apply (Hqs v ps). by right. }
    assert (Hdiv : diverge ps0 qs = true) by (apply (Hqs v0); by left).
    split; [by apply (place_frame v0 ps0)|].
    by apply (place_addressable_frame v0 ps0).
Qed.

(* ===================================================================== *)
(** ** [set] on path strings *)
(* ===================================================================== *)

Lemma segments_Split (path : string) :
  segments path = map parse_part (drop 1 (strings.Split path)).
Proof.
  unfold segments, parse_parts. by destruct (strings.Split path).
Qed.

Lemma rooted_Split (path : string) :
  rooted path = true ↔ hd ""%string (strings.Split path) = "variables"%string.
Proof.
  unfold rooted, parse_parts. pose proof (Split_not_nil path) as Hne.
  destruct (strings.Split path) as [|tok toks]; [done|]. cbn [map nth hd].
  rewrite negb_true_iff. apply first_part_check.
Qed.

(** [set] on a path with the root marker is the walk over its segments;
    on any other path it is the error. *)
Lemma set_rooted (v m : value) (path : string) :
  set v m path
  = if rooted path
    then let* m' := place v (segments path) m in Return (m', None)
    else Return (m, Some "first part of path is supposed to be variables"%string).
Proof.
  pose proof (parse_parts_not_nil path) as Hne.
  destruct (parse_parts path) as [|p0 ps] eqn:Hparts; [done|].
  rewrite (set_parts v m path p0 ps Hparts).
  unfold rooted, segments. rewrite Hparts. cbn [nth drop].
  by destruct (part_neq_string p0 "variables").
Qed.

Lemma set_Return_inv (v m m' : value) (path : string) :
  set v m path = Return (m', None) →
  rooted path = true ∧ place v (segments path) m = Return m'.
Proof.
  rewrite set_rooted. destruct (rooted path); [|done].
  destruct (place v (segments path) m); cbn [result_bind]; [|done].
  by intros [= ->].
Qed.

(** X1: what [set] wrote is what a reader finds at the same path. *)
Theorem X1_set_read_back (v m m' : value) (path : string) :
  segments path ≠ [] →
  set v m path = Return (m', None) →
  walk (segments path) m' = Some v.
Proof.
  intros Hne [_ Hplace]%set_Return_inv. by apply (place_walk v _ m).
Qed.

(** X2: [set] changes nothing off its path: a position whose path parts
    ways with the written one holds what it held, or is missing as it
    was. *)
Theorem X2_set_frame (v m m' : value) (path : string) (qs : list part) :
  set v m path = Return (m', None) →
  diverge (segments path) qs = true →
  walk qs m' = walk qs m.
Proof.
  intros [_ Hplace]%set_Return_inv Hdiv. by apply (place_frame v (segments path) qs m).
Qed.

(** X3: [set] overwrites: after a successful call, a second call at the
    same path gives what it would have given on the first container, so
    the last value wins and setting the same value twice changes nothing
    more. *)
Theorem X3_set_overwrite (v w m m1 : value) (path : string) :
  set v m path = Return (m1, None) →
  set w m1 path = set w m path
  ∧ set v m1 path = Return (m1, None).
Proof.
  intros Hset. pose proof Hset as [Hroot Hplace]%set_Return_inv.
  assert (Hover : ∀ u, set u m1 path = set u m path).
  { intros u. rewrite !set_rooted, Hroot.
    by rewrite (place_overwrite v u _ m m1 Hplace). }
  split; [apply Hover|]. by rewrite Hover.
Qed.

(** X4: [set] succeeds exactly when the path starts with the root marker
    and names a position that exists: each segment before the last leads
    to an element of the right shape, and the last names a key of a
    non-nil map or an index inside an ordered container.  Nothing is ever
    created on the way. *)
Theorem X4_set_succeeds_iff_addressable (v m : value) (path : string) :
  (∃ m', set v m path = Return (m', None))
  ↔ rooted path = true ∧ addressable (segments path) m = true.
Proof.
  rewrite <- (place_addressable v). split.
  - intros [m' [Hroot Hplace]%set_Return_inv]. eauto.
  - intros [Hroot [m' Hplace]]. exists m'.
    by rewrite set_rooted, Hroot, Hplace.
Qed.

(** X5: [set] panics with an index out of range exactly when, on a path
    with the root marker, an index segment meets an ordered container
    that does not have that index (a negative index included): a slice is
    never extended. *)
Theorem X5_set_index_out_of_range (v m : value) (path : string) :
  set v m path = Panic PanicIndexOutOfRange
  ↔ rooted path = true ∧ index_out_of_range (segments path) m = true.
Proof.
  rewrite <- (place_index_out_of_range v), set_rooted.
  destruct (rooted path); [|split; [done|by intros [? _]]].
  destruct (place v (segments path) m); cbn [result_bind];
    split; [done|by intros [_ ?]|by intros [= ->]|by intros [_ [= ->]]].
Qed.

(** X6: on the variables object, [set] adds the key named by a path of
    one field segment and otherwise keeps the set of keys as it is. *)
Theorem X6_set_keys (v : value) (entries : gmap string value) (m' : value)
    (path : string) :
  set v (VMap entries) path = Return (m', None) →
  ∃ entries',
    m' = VMap entries'
    ∧ dom entries'
      = dom entries ∪ match segments path with
                      | [PString name] => {[ name ]}
                      | _ => ∅
                      end.
Proof.
  intros [_ Hplace]%set_Return_inv.
  destruct (segments path) as [|p ps].
  { injection Hplace as <-. exists entries. split; [done|].
    by rewrite union_empty_r_L. }
  destruct p as [i|k].
  { apply place_int_inv in Hplace as (elems & x & Hm & _). discriminate Hm. }
  apply place_string_inv in Hplace
    as (e & Hm & [[-> ->]|(Hne & child & child' & Hk & _ & ->)]);
    injection Hm as <-.
  - eexists. split; [done|]. rewrite dom_insert_L. apply union_comm_L.
  - eexists. split; [done|]. rewrite dom_insert_L.
    apply (elem_of_dom_2 (D := gset string)) in Hk.
    destruct ps; [done|]. rewrite union_empty_r_L.
    apply subseteq_union_1_L. by apply singleton_subseteq_l.
Qed.
(* ===================================================================== *)
(** ** Index tokens *)
(* ===================================================================== *)

Lemma digits_value_decimal (s : string) :
  ∀ acc, regexp.all_digits s = true →
         strconv.digits_value acc s
         = Some (fold_left (fun a c => a * 10 + digit_of c)
                           (list_ascii_of_string s) acc).
Proof.
  induction s as [|c rest IH]; intros acc; [done|].
  cbn [regexp.all_digits strconv.digits_value list_ascii_of_string fold_left].
  intros [-> Hrest]%andb_true_iff. by apply IH.
Qed.

Lemma digit_of_bounds (c : ascii) :
  regexp.is_digit c = true → 0 ≤ digit_of c ≤ 9.
Proof.
  unfold regexp.is_digit, digit_of.
  intros [H1%Nat.leb_le H2%Nat.leb_le]%andb_true_iff. lia.
Qed.

Lemma decimal_fold_nonneg (s : string) :
  ∀ acc, regexp.all_digits s = true → 0 ≤ acc →
         acc ≤ fold_left (fun a c => a * 10 + digit_of c)
                         (list_ascii_of_string s) acc.
Proof.
  induction s as [|c rest IH]; intros acc; [cbn; lia|].
  cbn [regexp.all_digits list_ascii_of_string fold_left].
  intros [Hc%digit_of_bounds Hrest]%andb_true_iff Hacc.
  etrans; [|apply IH]; [lia|done|lia].
Qed.

(** A string of [k] digits read after [acc] stays below
    [(acc + 1) * 10 ^ k]. *)
Lemma decimal_fold_bound (s : string) :
  ∀ acc, regexp.all_digits s = true → 0 ≤ acc →
         fold_left (fun a c => a * 10 + digit_of c)
                   (list_ascii_of_string s) acc
         < (acc + 1) * 10 ^ Z.of_nat (String.length s).
Proof.
  induction s as [|c rest IH]; intros acc; [cbn; lia|].
  cbn [regexp.all_digits list_ascii_of_string fold_left String.length].
  intros [Hc%digit_of_bounds Hrest]%andb_true_iff Hacc.
  rewrite Nat2Z.inj_succ, Z.pow_succ_r by lia.
  eapply Z.lt_le_trans; [apply IH; [done|lia]|].
  assert (0 < 10 ^ Z.of_nat (String.length rest)) by (apply Z.pow_pos_nonneg; lia).
  nia.
Qed.

(** A digit is not a sign. *)
Lemma digit_not_sign (c : ascii) :
  regexp.is_digit c = true →
  Ascii.eqb c "+" = false ∧ Ascii.eqb c "-" = false.
Proof.
  destruct c as [b0 b1 b2 b3 b4 b5 b6 b7].
  destruct b0, b1, b2, b3, b4, b5, b6, b7; done.
Qed.

(** On a string of digits the loop of [ParseUint] gives the decimal value,
    or the largest [uint64] with a range error once the value is beyond
    it. *)
Lemma ParseUint_loop_digits (s : string) :
  ∀ n, regexp.all_digits s = true → 0 ≤ n ≤ strconv.maxUint64 →
       strconv.ParseUint_loop n s
       = let v := fold_left (fun a c => a * 10 + digit_of c)
                            (list_ascii_of_string s) n in
         if v <=? strconv.maxUint64 then (v, None)
         else (strconv.maxUint64, Some strconv.ErrRange).
Proof.
  assert (Hmax : strconv.maxUint64 = 18446744073709551615) by done.
  assert (Hcut : strconv.maxUint64 / 10 + 1 = 1844674407370955162) by done.
  assert (H64 : 2 ^ 64 = 18446744073709551616) by done.
  induction s as [|c rest IH]; intros n.
  { intros _ Hn. cbn. by destruct (Z.leb_spec n strconv.maxUint64); [|lia]. }
  cbn [regexp.all_digits list_ascii_of_string fold_left strconv.ParseUint_loop].
  intros [Hc Hrest]%andb_true_iff Hn. rewrite Hc.
  pose proof (digit_of_bounds c Hc) as Hd.
  pose proof (decimal_fold_nonneg rest (n * 10 + digit_of c) Hrest) as Hmono.
  specialize (IH (n * 10 + digit_of c) Hrest).
  change (Z.of_nat (nat_of_ascii c) - 48) with (digit_of c).
  set (d := digit_of c) in *.
  set (v := fold_left (fun a c => a * 10 + digit_of c)
                      (list_ascii_of_string rest) (n * 10 + d)) in *.
  cbv zeta in IH |- *. rewrite Hcut.
  destruct (Z.leb_spec 1844674407370955162 n) as [Hover|Hfits].
  { destruct (Z.leb_spec v strconv.maxUint64) as [Hle|_]; [lia|done]. }
  unfold strconv.uint64. rewrite H64.
  rewrite (Z.mod_small (n * 10)) by lia.
  destruct (Z.le_gt_cases (n * 10 + d) 18446744073709551615) as [Hin|Hout].
  - rewrite (Z.mod_small (n * 10 + d)) by lia.
    destruct (Z.ltb_spec (n * 10 + d) (n * 10)); [lia|].
    destruct (Z.ltb_spec strconv.maxUint64 (n * 10 + d)); [lia|].
    cbn [orb]. apply IH. lia.
  - assert (Hwrap : (n * 10 + d) mod 18446744073709551616
                    = n * 10 + d - 18446744073709551616).
    { symmetry. apply (Z.mod_unique _ _ 1); lia. }
    rewrite Hwrap.
    destruct (Z.ltb_spec (n * 10 + d - 18446744073709551616) (n * 10)); [|lia].
    cbn [orb].
    destruct (Z.leb_spec v strconv.maxUint64) as [Hle|_]; [lia|done].
Qed.

(** A value within [int64] is kept by the conversion. *)
Lemma int64_fits (z : Z) :
  -9223372036854775808 ≤ z ≤ 9223372036854775807 → strconv.int64 z = z.
Proof.
  intros Hz. unfold strconv.int64.
  change (2 ^ 63) with 9223372036854775808.
  change (2 ^ 64) with 18446744073709551616.
  rewrite Z.mod_small by lia. lia.
Qed.

(** The smallest [int64] is its own negation. *)
Lemma int64_neg_min :
  strconv.int64 9223372036854775808 = -9223372036854775808
  ∧ strconv.int64 (- -9223372036854775808) = -9223372036854775808.
Proof. by vm_compute. Qed.

(** [ParseInt] on a non-empty string of digits. *)
Lemma ParseInt_digits (s : string) :
  regexp.MatchString_anchored s = true →
  fst (strconv.ParseInt s) = Z.min (decimal s) 9223372036854775807.
Proof.
  intros Hall. destruct s as [|c rest]; [done|].
  cbn [regexp.MatchString_anchored] in Hall.
  pose proof Hall as [Hc _]%andb_true_iff.
  pose proof (digit_not_sign c Hc) as [Hplus Hminus].
  pose proof (decimal_fold_nonneg (String c rest) 0 Hall (Z.le_refl 0)) as Hpos.
  fold (decimal (String c rest)) in Hpos.
  assert (Hrange : 0 ≤ 0 ≤ strconv.maxUint64) by done.
  unfold strconv.ParseInt. rewrite Hplus, Hminus.
  unfold strconv.ParseUint.
  rewrite (ParseUint_loop_digits (String c rest) 0 Hall Hrange).
  fold (decimal (String c rest)). cbv zeta.
  change (2 ^ (strconv.IntSize - 1)) with 9223372036854775808.
  change strconv.maxUint64 with 18446744073709551615.
  destruct (Z.leb_spec (decimal (String c rest)) 18446744073709551615)
    as [Hle|Hgt]; cbn [negb andb].
  - destruct (Z.leb_spec 9223372036854775808 (decimal (String c rest)))
      as [Hbig|Hsmall]; cbn [fst]; rewrite int64_fits by lia; lia.
  - change (String.eqb strconv.ErrRange strconv.ErrRange) with true.
    cbn [negb fst]. change (9223372036854775808 <=? 18446744073709551615)
      with true. cbn [fst]. rewrite int64_fits by lia. lia.
Qed.

(** [ParseInt] on a minus sign and a non-empty string of digits. *)
Lemma ParseInt_minus_digits (s : string) :
  regexp.MatchString_anchored s = true →
  fst (strconv.ParseInt (String "-" s))
  = Z.max (- decimal s) (-9223372036854775808).
Proof.
  intros Hall. destruct s as [|c rest]; [done|].
  cbn [regexp.MatchString_anchored] in Hall.
  pose proof (decimal_fold_nonneg (String c rest) 0 Hall (Z.le_refl 0)) as Hpos.
  fold (decimal (String c rest)) in Hpos.
  assert (Hrange : 0 ≤ 0 ≤ strconv.maxUint64) by done.
  destruct int64_neg_min as [Hmin Hnegmin].
  unfold strconv.ParseInt.
  change (Ascii.eqb "-" "+") with false.
  change (Ascii.eqb "-" "-") with true. cbv iota.
  unfold strconv.ParseUint.
  rewrite (ParseUint_loop_digits (String c rest) 0 Hall Hrange).
  fold (decimal (String c rest)). cbv zeta.
  change (2 ^ (strconv.IntSize - 1)) with 9223372036854775808.
  change strconv.maxUint64 with 18446744073709551615.
  destruct (Z.leb_spec (decimal (String c rest)) 18446744073709551615)
    as [Hle|Hgt]; cbn [negb andb].
  - destruct (Z.ltb_spec 9223372036854775808 (decimal (String c rest)))
      as [Hbig|Hsmall]; cbn [fst].
    + rewrite Hmin, Hnegmin. lia.
    + destruct (Z.eq_dec (decimal (String c rest)) 9223372036854775808)
        as [Heq|Hne].
      * rewrite Heq, Hmin, Hnegmin. lia.
      * rewrite (int64_fits (decimal (String c rest))) by lia.
        rewrite int64_fits by lia. lia.
  - change (String.eqb strconv.ErrRange strconv.ErrRange) with true.
    cbn [negb fst]. change (9223372036854775808 <? 18446744073709551615)
      with true. cbn [fst]. rewrite Hmin, Hnegmin. lia.
Qed.

(** [Atoi] on a non-empty string of digits: the decimal value, or the
    largest [int] once the value is beyond it. *)
Lemma Atoi_digits (s : string) :
  regexp.MatchString_anchored s = true →
  fst (strconv.Atoi s) = Z.min (decimal s) strconv.maxInt.
Proof.
  intros Hall. change strconv.maxInt with 9223372036854775807.
  unfold strconv.Atoi.
  destruct (_ && _) eqn:Hfast; [|by apply ParseInt_digits].
  apply andb_true_iff in Hfast as [_ Hlen%Z.ltb_lt].
  destruct s as [|c rest]; [done|].
  cbn [regexp.MatchString_anchored] in Hall.
  pose proof Hall as [Hc _]%andb_true_iff.
  pose proof (decimal_fold_nonneg (String c rest) 0 Hall (Z.le_refl 0)) as Hpos.
  pose proof (decimal_fold_bound (String c rest) 0 Hall (Z.le_refl 0))
    as Hbound.
  fold (decimal (String c rest)) in Hpos, Hbound.
  assert (Hbody : (let '(neg, body) :=
                     match String c rest with
                     | String "-"%char r => (true, r)
                     | String "+"%char r => (false, r)
                     | _ => (false, String c rest)
                     end in
                   match body with
                   | EmptyString => (0, Some strconv.ErrSyntax)
                   | String _ _ =>
                       match strconv.digits_value 0 body with
                       | None => (0, Some strconv.ErrSyntax)
                       | Some n => (if neg then - n else n, None)
                       end
                   end)
                  = match strconv.digits_value 0 (String c rest) with
                    | None => (0, Some strconv.ErrSyntax)
                    | Some n => (n, None)
                    end).
  { clear -Hc. destruct c as [b0 b1 b2 b3 b4 b5 b6 b7].
    destruct b0, b1, b2, b3, b4, b5, b6, b7; done. }
  rewrite Hbody, (digits_value_decimal (String c rest) 0 Hall).
  fold (decimal (String c rest)). cbn [fst].
  assert (10 ^ Z.of_nat (String.length (String c rest)) ≤ 10 ^ 18)
    by (apply Z.pow_le_mono_r; lia).
  assert (10 ^ 18 = 1000000000000000000) by done. lia.
Qed.

(** [Atoi] on a minus sign and a non-empty string of digits: the negated
    decimal value, or the smallest [int] once the value is beyond it. *)
Lemma Atoi_minus_digits (s : string) :
  regexp.MatchString_anchored s = true →
  fst (strconv.Atoi (String "-" s)) = Z.max (- decimal s) strconv.minInt.
Proof.
  intros Hall. change strconv.minInt with (-9223372036854775808).
  unfold strconv.Atoi.
  destruct (_ && _) eqn:Hfast; [|by apply ParseInt_minus_digits].
  apply andb_true_iff in Hfast as [_ Hlen%Z.ltb_lt].
  destruct s as [|c rest]; [done|].
  cbn [regexp.MatchString_anchored] in Hall.
  pose proof (decimal_fold_nonneg (String c rest) 0 Hall (Z.le_refl 0)) as Hpos.
  pose proof (decimal_fold_bound (String c rest) 0 Hall (Z.le_refl 0))
    as Hbound.
  fold (decimal (String c rest)) in Hpos, Hbound.
  rewrite (digits_value_decimal (String c rest) 0 Hall).
  fold (decimal (String c rest)). cbn [fst].
  assert (10 ^ Z.of_nat (String.length (String c rest)) ≤ 10 ^ 17).
  { apply Z.pow_le_mono_r; [lia|].
    change (String.length (String "-" (String c rest)))
      with (S (String.length (String c rest))) in Hlen. lia. }
  assert (10 ^ 17 = 100000000000000000) by done. lia.
Qed.

(** A token whose digits overflow is out of range before a later byte
    that is no digit is looked at: the value is the largest [int], not
    the 0 of a syntax error. *)
Lemma Atoi_range_before_syntax :
  strconv.Atoi "99999999999999999999x"
  = (strconv.maxInt, Some strconv.ErrRange)
  ∧ strconv.Atoi "123456789012345678x" = (0, Some strconv.ErrSyntax)
  ∧ parse_part "99999999999999999999x" = PInt strconv.maxInt.
Proof. by vm_compute. Qed.

(** So an index token that overflows before its first other byte is out
    of range for the slice it meets, and [set] panics there, also when
    more segments follow. *)
Lemma set_overflowing_index :
  set (VString "v") (VMap {[ "files" := VSlice [VNil] ]})
      "variables.files.99999999999999999999x"
  = Panic PanicIndexOutOfRange
  ∧ set (VString "v") (VMap {[ "files" := VSlice [VNil] ]})
        "variables.files.99999999999999999999x.name"
    = Panic PanicIndexOutOfRange.
Proof. by vm_compute. Qed.

(** X7: a token made of decimal digits only (leading zeros allowed) is
    the index segment of its decimal value; a value beyond the largest
    [int] gives the largest [int], never a negative or wrapped index. *)
Theorem X7_digit_token_index (tok : string) :
  regexp.MatchString_anchored tok = true →
  parse_part tok = PInt (Z.min (decimal tok) strconv.maxInt)
  ∧ 0 ≤ decimal tok.
Proof.
  intros Hall. pose proof (MatchString_anchored_digits tok Hall) as Hdig.
  assert (Hpos : 0 ≤ decimal tok).
  { destruct tok as [|c rest]; [done|].
    by apply (decimal_fold_nonneg (String c rest) 0). }
  split; [|done]. unfold parse_part. rewrite Hdig.
  by rewrite (Atoi_digits tok Hall).
Qed.

(** X8: a token of a minus sign and decimal digits is an index segment
    too, with the negated value (not below the smallest [int]); as an
    index of an ordered container it is out of range unless the digits
    are all zero. *)
Theorem X8_minus_token_index (digits : string) :
  regexp.MatchString_anchored digits = true →
  parse_part (String "-" digits)
  = PInt (Z.max (- decimal digits) strconv.minInt)
  ∧ (0 < decimal digits →
     ∀ elems, element_at elems (Z.max (- decimal digits) strconv.minInt)
              = None).
Proof.
  intros Hall. pose proof (MatchString_anchored_digits digits Hall) as Hdig.
  assert (Hmin : strconv.minInt < 0) by done.
  split.
  - unfold parse_part.
    assert (Hm : regexp.MatchString_digits (String "-" digits) = true).
    { apply MatchString_digits_spec.
      apply MatchString_digits_spec in Hdig as (d & Hd & Hdigit).
      exists d. split; [by right|done]. }
    rewrite Hm. by rewrite (Atoi_minus_digits digits Hall).
  - intros Hnz elems. unfold element_at.
    destruct (Z.ltb_spec (Z.max (- decimal digits) strconv.minInt) 0);
      [done|lia].
Qed.

(* ===================================================================== *)
(** ** The collecting loop *)
(* ===================================================================== *)

(** When the loop comes through, its two maps are built entry by entry,
    each under the value of its field. *)
Lemma collect_keyed_inserts (c : gin.Context)
    (todo : list (string * list string)) :
  ∀ uploads variables uploads' variables',
    collect c todo uploads variables = inr (uploads', variables') →
    uploads' = keyed_inserts (file_of c) todo uploads
    ∧ variables' = keyed_inserts (text_of c) todo variables.
Proof.
  induction todo as [|[key path] todo' IH];
    intros uploads variables uploads' variables'.
  { by intros [= <- <-]. }
  cbn [collect]. unfold keyed_inserts. cbn [fold_left fst snd].
  unfold file_of at 2, text_of at 2, field_value.
  destruct (gin.GetPostForm c key) as [text|]; [apply IH|].
  destruct (gin.FormFile c key) as [[fh|] [err|]]; try done; apply IH.
Qed.

Lemma keyed_inserts_lookup {K : Type} `{Countable K}
    (f : string → option K) (todo : list (string * list string)) :
  NoDup todo.*1 →
  (∀ k1 k2 x, k1 ∈ todo.*1 → k2 ∈ todo.*1 →
              f k1 = Some x → f k2 = Some x → k1 = k2) →
  ∀ (m : gmap K (list string)) x paths,
    keyed_inserts f todo m !! x = Some paths
    ↔ (∃ key, (key, paths) ∈ todo ∧ f key = Some x)
      ∨ ((∀ key, key ∈ todo.*1 → f key ≠ Some x) ∧ m !! x = Some paths).
Proof.
  induction todo as [|[key0 paths0] todo' IH]; intros Hnodup Hinj m x paths.
  { cbn. split; [intros Hm; right; split; [|done]|].
    - intros key Hin. by apply elem_of_nil in Hin.
    - intros [(key & Hin & _)|[_ Hm]]; [by apply elem_of_nil in Hin|done]. }
  cbn [fmap list_fmap fst] in Hnodup, Hinj.
  apply NoDup_cons in Hnodup as [Hfresh Hnodup].
  unfold keyed_inserts. cbn [fold_left fst snd].
  fold (keyed_inserts f todo'
          (match f key0 with Some k => <[k := paths0]> m | None => m end)).
  rewrite IH; [|done|intros k1 k2 y H1 H2; apply Hinj; by right].
  assert (Hother : ∀ key, key ∈ todo'.*1 → f key0 = Some x →
                          f key ≠ Some x).
  { intros key Hin H0 Hk. destruct Hfresh.
    rewrite (Hinj key0 key x); [done|by left|by right|done|done]. }
  split.
  - intros [(key & Hin & Hk)|[Hnone Hm]].
    + left. exists key. split; [by right|done].
    + destruct (f key0) as [k|] eqn:H0.
      * destruct (decide (k = x)) as [->|Hne].
        -- rewrite lookup_insert_eq in Hm. injection Hm as <-.
           left. exists key0. split; [by left|done].
        -- rewrite lookup_insert_ne in Hm by done. right. split; [|done].
           intros key Hin. cbn in Hin.
           apply elem_of_cons in Hin as [->|Hin]; [congruence|by apply Hnone].
      * right. split; [|done].
        intros key Hin. cbn in Hin.
        apply elem_of_cons in Hin as [->|Hin]; [congruence|by apply Hnone].
  - intros [(key & [Heq|Hin]%elem_of_cons & Hk)|[Hnone Hm]].
    + injection Heq as -> ->. right. rewrite Hk, lookup_insert_eq.
      split; [|done]. intros key' Hin'. by apply Hother.
    + left. eauto.
    + right. split; [intros key Hin; apply Hnone; by right|].
      destruct (f key0) as [k|] eqn:H0; [|done].
      rewrite lookup_insert_ne; [done|]. intros ->.
      by apply (Hnone key0); [left|].
Qed.

(** X9: the collecting loop fails exactly at the first entry, in the order
    of the iteration, whose field is no text field and for which
    [c.FormFile] returns an error, and it fails with that error; it
    comes through exactly when there is no such entry. *)
Theorem X9_collect_fails_at_first_missing (c : gin.Context)
    (todo : list (string * list string))
    (uploads : gmap FileHeaderPtr (list string))
    (variables : gmap string (list string)) :
  (∀ err,
     collect c todo uploads variables = inl err
     ↔ ∃ pre key paths post,
         todo = pre ++ (key, paths) :: post
         ∧ Forall (fun entry => field_ok c entry.1 = true) pre
         ∧ gin.GetPostForm c key = None
         ∧ snd (gin.FormFile c key) = Some err)
  ∧ ((∃ maps, collect c todo uploads variables = inr maps)
     ↔ Forall (fun entry => field_ok c entry.1 = true) todo).
Proof.
  revert uploads variables.
  induction todo as [|[key0 paths0] todo' IH]; intros uploads variables.
  { split.
    - intros err. split; [done|]. intros (pre & ? & ? & ? & Heq & _).
      by destruct pre.
    - split; eauto. }
  cbn [collect]. rewrite Forall_cons. unfold field_ok at 2. cbn [fst].
  assert (Hshift : ∀ (P : Prop) err, field_ok c key0 = true →
    (P ↔ ∃ pre key paths post,
           todo' = pre ++ (key, paths) :: post
           ∧ Forall (fun entry => field_ok c entry.1 = true) pre
           ∧ gin.GetPostForm c key = None
           ∧ snd (gin.FormFile c key) = Some err) →
    (P ↔ ∃ pre key paths post,
           (key0, paths0) :: todo' = pre ++ (key, paths) :: post
           ∧ Forall (fun entry => field_ok c entry.1 = true) pre
           ∧ gin.GetPostForm c key = None
           ∧ snd (gin.FormFile c key) = Some err)).
  { intros P err Hok ->. split.
    - intros (pre & key & paths & post & -> & Hpre & Hk).
      exists ((key0, paths0) :: pre), key, paths, post.
      split; [done|]. split; [by constructor|done].
    - intros (pre & key & paths & post & Heq & Hpre & Hform & Hfile).
      destruct pre as [|e pre'].
      + injection Heq as -> -> ->. unfold field_ok in Hok.
        by rewrite Hform, Hfile in Hok.
      + injection Heq as <- ->. apply Forall_cons in Hpre as [_ Hpre].
        exists pre', key, paths, post. done. }
  destruct (gin.GetPostForm c key0) as [text|] eqn:Hform.
  { destruct (IH uploads (<[text := paths0]> variables)) as [IHerr IHok].
    split.
    - intros err. apply Hshift; [unfold field_ok; by rewrite Hform|done].
    - rewrite IHok. split; [done|by intros [_ ?]]. }
  destruct (gin.FormFile c key0) as [[fh|] [err0|]] eqn:Hfile; cbn [snd].
  - split.
    + intros err. split.
      * intros [= <-]. exists [], key0, paths0, todo'.
        split; [done|]. split; [constructor|]. by rewrite Hfile.
      * intros (pre & key & paths & post & Heq & Hpre & Hform' & Hfile').
        destruct pre as [|e pre'].
        -- injection Heq as <- <- <-. rewrite Hfile in Hfile'.
           by injection Hfile' as ->.
        -- injection Heq as <- ->. apply Forall_cons in Hpre as [Hok _].
           unfold field_ok in Hok. cbn [fst] in Hok.
           by rewrite Hform, Hfile in Hok.
    + split; [by intros [? ?]|by intros [? _]].
  - destruct (IH (<[fh := paths0]> uploads) variables) as [IHerr IHok].
    split.
    + intros err. apply Hshift; [|done].
      unfold field_ok. by rewrite Hform, Hfile.
    + rewrite IHok. split; [done|by intros [_ ?]].
  - split.
    + intros err. split.
      * intros [= <-]. exists [], key0, paths0, todo'.
        split; [done|]. split; [constructor|]. by rewrite Hfile.
      * intros (pre & key & paths & post & Heq & Hpre & Hform' & Hfile').
        destruct pre as [|e pre'].
        -- injection Heq as <- <- <-. rewrite Hfile in Hfile'.
           by injection Hfile' as ->.
        -- injection Heq as <- ->. apply Forall_cons in Hpre as [Hok _].
           unfold field_ok in Hok. cbn [fst] in Hok.
           by rewrite Hform, Hfile in Hok.
    + split; [by intros [? ?]|by intros [? _]].
  - destruct (IH uploads variables) as [IHerr IHok].
    split.
    + intros err. apply Hshift; [|done].
      unfold field_ok. by rewrite Hform, Hfile.
    + rewrite IHok. split; [done|by intros [_ ?]].
Qed.

(** X10: a field that has a text value is taken as text and [c.FormFile]
    is not asked about it: two requests with the same text fields, and
    the same file parts for the fields without text, give the same
    result. *)
Theorem X10_collect_text_first (c c' : gin.Context)
    (todo : list (string * list string))
    (uploads : gmap FileHeaderPtr (list string))
    (variables : gmap string (list string)) :
  (∀ key, gin.GetPostForm c key = gin.GetPostForm c' key) →
  (∀ key, gin.GetPostForm c key = None →
          gin.FormFile c key = gin.FormFile c' key) →
  collect c todo uploads variables = collect c' todo uploads variables.
Proof.
  intros Hform Hfile. revert uploads variables.
  induction todo as [|[key path] todo' IH]; intros uploads variables; [done|].
  cbn [collect]. rewrite <- Hform.
  destruct (gin.GetPostForm c key) eqn:Hk; [apply IH|].
  rewrite <- (Hfile key Hk).
  destruct (gin.FormFile c key) as [[fh|] [err|]]; try done; apply IH.
Qed.

Lemma file_of_Some (c : gin.Context) (key : string) (fh : FileHeaderPtr) :
  file_of c key = Some fh ↔ field_value c key = Some (VFile fh).
Proof.
  unfold file_of. destruct (field_value c key) as [[]|]; split; congruence.
Qed.

Lemma text_of_Some (c : gin.Context) (key text : string) :
  text_of c key = Some text ↔ field_value c key = Some (VString text).
Proof.
  unfold text_of. destruct (field_value c key) as [[]|]; split; congruence.
Qed.

(** X11: when the keys of the upload map are distinct and distinct fields
    have distinct values, the loop files every text field's paths under
    its text and every file field's paths under its header, and nothing
    else. *)
Theorem X11_collect_maps (c : gin.Context)
    (todo : list (string * list string))
    (uploads : gmap FileHeaderPtr (list string))
    (variables : gmap string (list string)) :
  NoDup todo.*1 →
  (∀ k1 k2 v, k1 ∈ todo.*1 → k2 ∈ todo.*1 →
              field_value c k1 = Some v → field_value c k2 = Some v →
              k1 = k2) →
  collect c todo ∅ ∅ = inr (uploads, variables) →
  (∀ fileHeader paths,
     uploads !! fileHeader = Some paths
     ↔ ∃ key, (key, paths) ∈ todo
              ∧ field_value c key = Some (VFile fileHeader))
  ∧ (∀ text paths,
       variables !! text = Some paths
       ↔ ∃ key, (key, paths) ∈ todo
                ∧ field_value c key = Some (VString text)).
Proof.
  intros Hnodup Hinj [-> ->]%collect_keyed_inserts.
  pose proof (file_of_Some c) as Hfile.
  pose proof (text_of_Some c) as Htext.
  split.
  - intros fh paths. rewrite (keyed_inserts_lookup (file_of c)); [|done|].
    + rewrite lookup_empty. split.
      * intros [(key & Hin & Hk)|[_ ?]]; [|done].
        exists key. by rewrite <- Hfile.
      * intros (key & Hin & Hk). left. exists key. by rewrite Hfile.
    + intros k1 k2 x H1 H2 Hf1%Hfile Hf2%Hfile. by apply (Hinj k1 k2 (VFile x)).
  - intros text paths. rewrite (keyed_inserts_lookup (text_of c)); [|done|].
    + rewrite lookup_empty. split.
      * intros [(key & Hin & Hk)|[_ ?]]; [|done].
        exists key. by rewrite <- Htext.
      * intros (key & Hin & Hk). left. exists key. by rewrite Htext.
    + intros k1 k2 x H1 H2 Hf1%Htext Hf2%Htext.
      by apply (Hinj k1 k2 (VString x)).
Qed.

(* ===================================================================== *)
(** ** The shape of a request *)
(* ===================================================================== *)

Lemma write_sets (w : Response) (evs : list event) :
  Forall (fun e => is_EvSet e = true) evs →
  fold_left write_event evs w = w.
Proof.
  revert w. induction evs as [|e evs' IH]; intros w Hall; [done|].
  apply Forall_cons in Hall as [He Hall]. destruct e; try done.
  cbn [fold_left write_event]. by apply IH.
Qed.

(** The only error [set] returns, and it returns it with the container
    untouched. *)
Lemma set_error (v m m' : value) (path : string) (err : error) :
  set v m path = Return (m', Some err) →
  err = "first part of path is supposed to be variables"%string
  ∧ m' = m ∧ rooted path = false.
Proof.
  rewrite set_rooted. destruct (rooted path).
  - by destruct (place v (segments path) m).
  - by intros [= <- <-].
Qed.

Lemma set_paths_error (v : value) (paths : list string) :
  ∀ m err, snd (set_paths v paths m) = SetsError err →
           err = "first part of path is supposed to be variables"%string.
Proof.
  induction paths as [|path paths' IH]; intros m err; [done|].
  cbn [set_paths].
  destruct (set v m path) as [[m' [e|]]|p] eqn:Hset; cbn [snd]; [|..|done].
  - intros [= <-]. by apply set_error in Hset as [-> _].
  - specialize (IH m' err). by destruct (set_paths v paths' m').
Qed.

Lemma set_entries_error {K : Type} (inj : K → value)
    (todo : list (K * list string)) :
  ∀ m err, snd (set_entries inj todo m) = SetsError err →
           err = "first part of path is supposed to be variables"%string.
Proof.
  induction todo as [|[k paths] todo' IH]; intros m err; [done|].
  cbn [set_entries].
  pose proof (set_paths_error (inj k) paths m) as Hpaths.
  destruct (set_paths (inj k) paths m) as [evs [m'|e|p]]; cbn [snd] in *;
    [|by intros [= <-]; apply Hpaths|done].
  specialize (IH m' err). by destruct (set_entries inj todo' m').
Qed.

Lemma collect_error_key (c : gin.Context)
    (todo : list (string * list string)) :
  ∀ uploads variables err,
    collect c todo uploads variables = inl err →
    ∃ key paths, (key, paths) ∈ todo
                 ∧ gin.GetPostForm c key = None
                 ∧ snd (gin.FormFile c key) = Some err.
Proof.
  induction todo as [|[key path] todo' IH]; intros uploads variables err;
    [done|].
  cbn [collect].
  assert (Htail : ∀ u v, collect c todo' u v = inl err →
            ∃ key0 paths, (key0, paths) ∈ (key, path) :: todo'
                          ∧ gin.GetPostForm c key0 = None
                          ∧ snd (gin.FormFile c key0) = Some err).
  { intros u v (key0 & paths & Hin & Hk)%IH. exists key0, paths.
    split; [by right|done]. }
  destruct (gin.GetPostForm c key) as [text|] eqn:Hform; [apply Htail|].
  destruct (gin.FormFile c key) as [[fh|] [e|]] eqn:Hfile;
    try apply Htail; intros [= <-]; exists key, path;
    (split; [by left|]); by rewrite Hfile.
Qed.

Section HandlerShape.

Variable Unmarshal_params : string → GraphQLRequestParams * option error.
Variable Unmarshal_map : string → gmap string (list string) * option error.
Variable range_s : gmap string (list string) → list (string * list string).
Variable range_p :
  gmap FileHeaderPtr (list string) → list (FileHeaderPtr * list string).
Variable Do : graphql.Params → graphql.Result.

Hypothesis range_s_perm : ∀ m, range_s m ≡ₚ map_to_list m.
Hypothesis range_p_perm : ∀ m, range_p m ≡ₚ map_to_list m.

Local Notation assemble_ :=
  (assemble Unmarshal_params Unmarshal_map range_s range_p).
Local Notation serve_ :=
  (serve Unmarshal_params Unmarshal_map range_s range_p Do).

(** The reason behind an error reply. *)
Local Notation reply_cause c req message err :=
  ((message = "invalid operations string"%string
    ∧ snd (Unmarshal_params (OperationsString req)) = Some err)
   ∨ (message = "invalid map string"%string
      ∧ snd (Unmarshal_map (MapString req)) = Some err)
   ∨ (message = "invalid file upload"%string
      ∧ ∃ key, is_Some (fst (Unmarshal_map (MapString req)) !! key)
               ∧ gin.GetPostForm c key = None
               ∧ snd (gin.FormFile c key) = Some err)
   ∨ (message = "could not set variable"%string
      ∧ err = "first part of path is supposed to be variables"%string)).

(** The same reason, with the failing key as the loop met it. *)
Local Notation reply_origin c req message err :=
  ((message = "invalid operations string"%string
    ∧ snd (Unmarshal_params (OperationsString req)) = Some err)
   ∨ (message = "invalid map string"%string
      ∧ snd (Unmarshal_map (MapString req)) = Some err)
   ∨ (message = "invalid file upload"%string
      ∧ ∃ key paths,
          (key, paths) ∈ range_s (fst (Unmarshal_map (MapString req)))
          ∧ gin.GetPostForm c key = None
          ∧ snd (gin.FormFile c key) = Some err)
   ∨ (message = "could not set variable"%string
      ∧ err = "first part of path is supposed to be variables"%string)).

Lemma assemble_shape (c : gin.Context) (req : GraphQLRequest) :
  ∃ sets,
    Forall (fun e => is_EvSet e = true) sets
    ∧ ((∃ p, assemble_ c req = (sets, AsmPanic p))
       ∨ (∃ message err,
            assemble_ c req = (sets, AsmReply message err)
            ∧ reply_origin c req message err)
       ∨ (∃ req', assemble_ c req = (sets, AsmOk req'))).
Proof.
  pose proof (assemble_events Unmarshal_params Unmarshal_map range_s range_p
                c req) as Hevs.
  destruct (assemble_ c req) as [sets outcome] eqn:Hasm. cbn [fst] in Hevs.
  exists sets. split; [done|].
  destruct outcome as [req'|message err|p]; [eauto|right; left|eauto].
  exists message, err. split; [done|].
  revert Hasm. unfold assemble. destruct (_ && _); [|done].
  destruct (Unmarshal_params _) as [ops [e|]]; [intros [= _ <- <-]; eauto|].
  destruct (Unmarshal_map _) as [vm [e|]] eqn:Hmap;
    [intros [= _ <- <-]; eauto|].
  destruct (collect _ _ _ _) as [e|[uploads variables]] eqn:Hcollect.
  { intros [= _ <- <-]. right. right. left. split; [done|].
    apply collect_error_key in Hcollect as (key & paths & Hin & Hform & Hfile).
    exists key, paths. done. }
  pose proof (set_entries_error VString (range_s variables)
                (to_interface (VariableValues ops))) as Herr1.
  destruct (set_entries VString _ _) as [evs [m1|e|p]]; cbn [snd] in Herr1;
    [|intros [= _ <- <-]; do 3 right; split; [done|by apply Herr1]|done].
  pose proof (set_entries_error VFile (range_p uploads) m1) as Herr2.
  destruct (set_entries VFile _ _) as [evs' [m2|e|p]]; cbn [snd] in Herr2;
    [done|intros [= _ <- <-]; do 3 right; split; [done|by apply Herr2]|done].
Qed.

(** The events of a request, in order: the report of a failed bind, the
    calls of [set], and then either nothing more (a panic), or one error
    reply, or the providers, one call of the engine and its reply. *)
Lemma serve_shape (app : GraphQLApp) (c : gin.Context) :
  ∃ sets,
    Forall (fun e => is_EvSet e = true) sets
    ∧ ((∃ p, serve_ app c
               = (bind_events (snd (gin.ShouldBind c)) ++ sets, Panicked p))
       ∨ (∃ message err,
            serve_ app c
            = (bind_events (snd (gin.ShouldBind c)) ++ sets
                 ++ [EvJSON http.StatusOK
                       (BodyValue (graphqlErrorReply message err))],
               Finished)
            ∧ reply_origin c (fst (gin.ShouldBind c)) message err)
       ∨ (∃ req',
            serve_ app c
            = (bind_events (snd (gin.ShouldBind c)) ++ sets
                 ++ map EvProvider (seq 0 (length (ContextProviders app)))
                 ++ [EvDo (params_of app req'
                             (run_providers (ContextProviders app) c));
                     EvJSON http.StatusOK
                       (BodyResult
                          (Do (params_of app req'
                                 (run_providers (ContextProviders app) c))))],
               Finished))).
Proof.
  unfold serve. destruct (gin.ShouldBind c) as [req berr]. cbn [fst snd].
  destruct (assemble_shape c req)
    as (sets & Hsets & [[p ->]|[(message & err & -> & Hcause)|[req' ->]]]);
    exists sets; (split; [done|]); eauto 10.
Qed.

(** X12: the trace of every request has this order: a failed bind is
    reported first, then come the calls of [set], and then either
    nothing (the closure panicked), or one error reply, or every provider
    once, one call of the engine and the reply with its result.  So the
    engine is called at most once and only after every [set] came
    through, and a reply is written exactly when the closure returns. *)
Theorem X12_serve_trace (app : GraphQLApp) (c : gin.Context) :
  ∃ sets,
    Forall (fun e => is_EvSet e = true) sets
    ∧ ((∃ p, serve_ app c
               = (bind_events (snd (gin.ShouldBind c)) ++ sets, Panicked p))
       ∨ (∃ message err,
            serve_ app c
            = (bind_events (snd (gin.ShouldBind c)) ++ sets
                 ++ [EvJSON http.StatusOK
                       (BodyValue (graphqlErrorReply message err))],
               Finished))
       ∨ (∃ params,
            serve_ app c
            = (bind_events (snd (gin.ShouldBind c)) ++ sets
                 ++ map EvProvider (seq 0 (length (ContextProviders app)))
                 ++ [EvDo params;
                     EvJSON http.StatusOK (BodyResult (Do params))],
               Finished)
            ∧ graphql.PContext params
              = run_providers (ContextProviders app) c
            ∧ graphql.PSchema params = Schema app)).
Proof.
  destruct (serve_shape app c)
    as (sets & Hsets & [[p ->]|[(message & err & -> & _)|[req' ->]]]);
    exists sets; (split; [done|]); eauto 10.
Qed.

(** X13: what the client gets.  When the closure returns, exactly one
    body was written, under the status 200 if the bind had succeeded and
    under the status 500 of the bind failure otherwise.  When the closure
    panics, it has written no body, and no status line either unless the
    bind had failed. *)
Theorem X13_serve_response (app : GraphQLApp) (c : gin.Context) :
  let status :=
    match snd (gin.ShouldBind c) with
    | Some _ => http.StatusInternalServerError
    | None => http.StatusOK
    end in
  (snd (serve_ app c) = Finished →
   ∃ obj, response_of (fst (serve_ app c))
          = {| wire_status := Some status; wire_body := [obj] |})
  ∧ (∀ p, snd (serve_ app c) = Panicked p →
          response_of (fst (serve_ app c))
          = {| wire_status :=
                 match snd (gin.ShouldBind c) with
                 | Some _ => Some http.StatusInternalServerError
                 | None => None
                 end;
               wire_body := [] |}).
Proof.
  intros status. subst status.
  assert (Hbound : ∀ sets, Forall (fun e => is_EvSet e = true) sets →
    fold_left write_event sets (response_of (bind_events (snd (gin.ShouldBind c))))
    = {| wire_status :=
           match snd (gin.ShouldBind c) with
           | Some _ => Some http.StatusInternalServerError
           | None => None
           end;
         wire_body := [] |}).
  { intros sets Hsets. rewrite (write_sets _ sets Hsets).
    by destruct (snd (gin.ShouldBind c)). }
  destruct (serve_shape app c)
    as (sets & Hsets & [[p ->]|[(message & err & -> & _)|[req' ->]]]);
    cbn [fst snd]; (split; [|intros p']); try done.
  - intros _. by rewrite response_of_app, Hbound.
  - eexists. rewrite !response_of_app, !fold_left_app, (Hbound sets Hsets).
    by destruct (snd (gin.ShouldBind c)).
  - eexists. rewrite !response_of_app, !fold_left_app, (Hbound sets Hsets).
    rewrite write_providers. by destruct (snd (gin.ShouldBind c)).
Qed.

(** X14: every error reply of the handler has the status 200 in its call
    of [c.JSON], and one of four causes: the operations text did not
    decode, the map text did not decode, [c.FormFile] failed for a key of
    the map that is no text field, or a path lacks the root marker.  The
    error [empty path found] of [set] is never seen. *)
Theorem X14_error_reply_causes (app : GraphQLApp) (c : gin.Context)
    (code : Z) (v : value) :
  In (EvJSON code (BodyValue v)) (fst (serve_ app c)) →
  code = http.StatusOK
  ∧ ∃ message err,
      v = graphqlErrorReply message err
      ∧ reply_cause c (fst (gin.ShouldBind c)) message err.
Proof.
  assert (Hno : ∀ evs, Forall (fun e => is_EvSet e = true) evs →
                       ¬ In (EvJSON code (BodyValue v)) evs).
  { intros evs Hall Hin%list_elem_of_In.
    rewrite Forall_forall in Hall. by apply Hall in Hin. }
  assert (Hbind : ¬ In (EvJSON code (BodyValue v))
                       (bind_events (snd (gin.ShouldBind c)))).
  { destruct (snd (gin.ShouldBind c)); cbn; [by intros [?|[]]|by intros []]. }
  destruct (serve_shape app c)
    as (sets & Hsets & [[p ->]|[(message & err & -> & Hcause)|[req' ->]]]);
    cbn [fst]; rewrite !in_app_iff.
  - intros [?|?]; [done|by apply Hno in Hsets].
  - intros [?|[?|[Heq|[]]]]; [done|by apply Hno in Hsets|].
    injection Heq as <- <-. split; [done|]. exists message, err.
    split; [done|].
    destruct Hcause as [?|[?|[[Hm (key & paths & Hin & Hform & Hfile)]|?]]];
      [eauto|eauto|right; right; left|eauto].
    split; [done|]. exists key. split; [|done]. exists paths.
    rewrite (range_s_perm _) in Hin. by apply elem_of_map_to_list in Hin.
  - intros [?|[?|[Hin|[?|[?|[]]]]]]; try done; [by apply Hno in Hsets|].
    apply in_map_iff in Hin as (i & ? & _). done.
Qed.

End HandlerShape.

(* ===================================================================== *)
(** ** Assembly of the variables *)
(* ===================================================================== *)

Lemma place_map_root (v : value) (ps : list part)
    (entries : gmap string value) (m' : value) :
  place v ps (VMap entries) = Return m' → ∃ entries', m' = VMap entries'.
Proof.
  destruct ps as [|[i|k] ps']; [intros [= <-]; eauto| |].
  - intros (elems & x & Hm & _)%place_int_inv. discriminate Hm.
  - intros (e & _ & [[_ ->]|(_ & child & child' & _ & _ & ->)])%place_string_inv;
      eauto.
Qed.

Lemma place_all_map_root (todo : list (value * list part)) :
  ∀ entries m', place_all todo (VMap entries) = Return m' →
                ∃ entries', m' = VMap entries'.
Proof.
  induction todo as [|[v ps] todo' IH]; intros entries m';
    [intros [= <-]; eauto|].
  cbn [place_all].
  destruct (place v ps (VMap entries)) as [m1|] eqn:H1; [|done].
  apply place_map_root in H1 as [e1 ->]. cbn [result_bind]. apply IH.
Qed.

(** The loop over the paths of one field, when every path has the root
    marker and the walks come through. *)
Lemma set_paths_place_all (v : value) (paths : list string) :
  ∀ m m',
    Forall (fun path => rooted path = true) paths →
    place_all ((fun path => (v, segments path)) <$> paths) m = Return m' →
    set_paths v paths m = (EvSet v <$> paths, SetsDone m').
Proof.
  induction paths as [|path paths' IH]; intros m m' Hroot;
    [by intros [= <-]|].
  apply Forall_cons in Hroot as [Hroot Hroots].
  cbn [fmap list_fmap place_all set_paths]. rewrite set_rooted, Hroot.
  destruct (place v (segments path) m) as [m1|]; cbn [result_bind]; [|done].
  intros Hrest. by rewrite (IH m1 m' Hroots Hrest).
Qed.

Lemma set_entries_place_all {K : Type} (inj : K → value)
    (todo : list (K * list string)) :
  ∀ m m',
    Forall (fun entry => Forall (fun path => rooted path = true) entry.2)
           todo →
    place_all (assignments inj todo) m = Return m' →
    ∃ sets, set_entries inj todo m = (sets, SetsDone m')
            ∧ Forall (fun e => is_EvSet e = true) sets.
Proof.
  induction todo as [|[k paths] todo' IH]; intros m m' Hroot.
  { intros [= <-]. exists []. by split. }
  apply Forall_cons in Hroot as [Hroot Hroots]. cbn [snd] in Hroot.
  unfold assignments. rewrite bind_cons. cbn [fst snd].
  rewrite place_all_app.
  destruct (place_all _ m) as [m1|] eqn:H1; cbn [result_bind]; [|done].
  intros Hrest. destruct (IH m1 m' Hroots Hrest) as (sets & Hsets & Hall).
  exists ((EvSet (inj k) <$> paths) ++ sets).
  cbn [set_entries].
  rewrite (set_paths_place_all (inj k) paths m m1 Hroot H1), Hsets.
  split; [done|]. apply Forall_app. split; [|done].
  apply Forall_forall. intros e He.
  apply list_elem_of_fmap in He as (path & -> & _). done.
Qed.

Lemma elem_of_assignments {K : Type} (inj : K → value)
    (todo : list (K * list string)) (v : value) (ps : list part) :
  (v, ps) ∈ assignments inj todo
  ↔ ∃ k paths path, (k, paths) ∈ todo ∧ path ∈ paths
                    ∧ v = inj k ∧ ps = segments path.
Proof.
  unfold assignments. rewrite list_elem_of_bind. split.
  - intros ([k paths] & (path & [= -> ->] & Hpath)%list_elem_of_fmap & Hin).
    exists k, paths, path. done.
  - intros (k & paths & path & Hin & Hpath & -> & ->).
    exists (k, paths). split; [|done].
    apply list_elem_of_fmap. by exists path.
Qed.

Lemma collect_ok (c : gin.Context) (todo : list (string * list string)) :
  Forall (fun entry => field_ok c entry.1 = true) todo →
  ∀ uploads variables, ∃ maps, collect c todo uploads variables = inr maps.
Proof.
  induction todo as [|[key path] todo' IH]; intros Hok uploads variables;
    [by eexists|].
  apply Forall_cons in Hok as [Hok Hoks]. cbn [collect].
  unfold field_ok in Hok. cbn [fst] in Hok.
  destruct (gin.GetPostForm c key); [by apply IH|].
  destruct (gin.FormFile c key) as [[fh|] [err|]]; try done; by apply IH.
Qed.

Lemma field_value_ok (c : gin.Context) (key : string) :
  is_Some (field_value c key) → field_ok c key = true.
Proof.
  unfold field_value, field_ok. destruct (gin.GetPostForm c key); [done|].
  destruct (gin.FormFile c key) as [[fh|] [err|]]; by intros [? ?].
Qed.

Lemma field_value_cases (c : gin.Context) (key : string) (v : value) :
  field_value c key = Some v →
  (∃ text, v = VString text) ∨ (∃ fileHeader, v = VFile fileHeader).
Proof.
  unfold field_value. destruct (gin.GetPostForm c key); [intros [= <-]; eauto|].
  destruct (gin.FormFile c key) as [[fh|] [err|]]; try done.
  intros [= <-]. eauto.
Qed.

Section HandlerAssembly.

Variable Unmarshal_params : string → GraphQLRequestParams * option error.
Variable Unmarshal_map : string → gmap string (list string) * option error.
Variable range_s : gmap string (list string) → list (string * list string).
Variable range_p :
  gmap FileHeaderPtr (list string) → list (FileHeaderPtr * list string).
Variable Do : graphql.Params → graphql.Result.

Hypothesis range_s_perm : ∀ m, range_s m ≡ₚ map_to_list m.
Hypothesis range_p_perm : ∀ m, range_p m ≡ₚ map_to_list m.

Local Notation serve_ :=
  (serve Unmarshal_params Unmarshal_map range_s range_p Do).

Lemma range_s_elem (m : gmap string (list string)) (key : string)
    (paths : list string) :
  (key, paths) ∈ range_s m ↔ m !! key = Some paths.
Proof. rewrite (range_s_perm m). apply elem_of_map_to_list. Qed.

Lemma range_p_elem (m : gmap FileHeaderPtr (list string))
    (fh : FileHeaderPtr) (paths : list string) :
  (fh, paths) ∈ range_p m ↔ m !! fh = Some paths.
Proof. rewrite (range_p_perm m). apply elem_of_map_to_list. Qed.

Lemma range_s_NoDup (m : gmap string (list string)) : NoDup (range_s m).*1.
Proof. rewrite (range_s_perm m). apply NoDup_fst_map_to_list. Qed.

(** What the collecting loop makes of an upload map whose fields are all
    there, with distinct values for distinct fields. *)
Lemma collect_range (c : gin.Context) (vm : gmap string (list string)) :
  (∀ key, is_Some (vm !! key) → is_Some (field_value c key)) →
  (∀ k1 k2 v, is_Some (vm !! k1) → is_Some (vm !! k2) →
              field_value c k1 = Some v → field_value c k2 = Some v →
              k1 = k2) →
  ∃ uploads variables,
    collect c (range_s vm) ∅ ∅ = inr (uploads, variables)
    ∧ (∀ fh paths,
         uploads !! fh = Some paths
         ↔ ∃ key, vm !! key = Some paths
                  ∧ field_value c key = Some (VFile fh))
    ∧ (∀ text paths,
         variables !! text = Some paths
         ↔ ∃ key, vm !! key = Some paths
                  ∧ field_value c key = Some (VString text)).
Proof.
  intros Hpresent Hinj.
  assert (Hkeys : ∀ key, key ∈ (range_s vm).*1 → is_Some (vm !! key)).
  { intros key ([k paths] & -> & Hin%range_s_elem)%list_elem_of_fmap. eauto. }
  assert (Hok : Forall (fun entry => field_ok c entry.1 = true) (range_s vm)).
  { apply Forall_forall. intros [key paths] Hin%range_s_elem.
    apply field_value_ok, Hpresent. eauto. }
  destruct (collect_ok c _ Hok ∅ ∅) as [[uploads variables] Hcollect].
  exists uploads, variables. split; [done|].
  apply collect_keyed_inserts in Hcollect as [-> ->].
  split.
  - intros fh paths.
    rewrite (keyed_inserts_lookup (file_of c)); [|apply range_s_NoDup|].
    + rewrite lookup_empty. split.
      * intros [(key & Hin%range_s_elem & Hk%file_of_Some)|[_ ?]]; [|done].
        eauto.
      * intros (key & Hin%range_s_elem & Hk%file_of_Some). left. eauto.
    + intros k1 k2 x H1%Hkeys H2%Hkeys Hf1%file_of_Some Hf2%file_of_Some.
      by apply (Hinj k1 k2 (VFile x)).
  - intros text paths.
    rewrite (keyed_inserts_lookup (text_of c)); [|apply range_s_NoDup|].
    + rewrite lookup_empty. split.
      * intros [(key & Hin%range_s_elem & Hk%text_of_Some)|[_ ?]]; [|done].
        eauto.
      * intros (key & Hin%range_s_elem & Hk%text_of_Some). left. eauto.
    + intros k1 k2 x H1%Hkeys H2%Hkeys Hf1%text_of_Some Hf2%text_of_Some.
      by apply (Hinj k1 k2 (VString x)).
Qed.

(** X15: the assembly is right and does not depend on the order in which
    the Go maps are visited, under these conditions: both upload fields
    decode; every field named in the map is in the form and distinct
    fields have distinct values; every path has the root marker and names
    a position that exists in the variables of the operations; and the
    paths part ways two by two.  Then every call of [set] succeeds, the
    engine is called, and the variables it gets hold the value of each
    field at each of its paths and are otherwise those of the
    operations. *)
Theorem X15_assembly_places_every_field (app : GraphQLApp) (c : gin.Context)
    (req : GraphQLRequest) (berr : option error)
    (ops : GraphQLRequestParams) (entries : gmap string value)
    (vm : gmap string (list string)) :
  gin.ShouldBind c = (req, berr) →
  OperationsString req ≠ ""%string →
  MapString req ≠ ""%string →
  Unmarshal_params (OperationsString req) = (ops, None) →
  VariableValues ops = Some entries →
  Unmarshal_map (MapString req) = (vm, None) →
  (∀ key, is_Some (vm !! key) → is_Some (field_value c key)) →
  (∀ k1 k2 v, is_Some (vm !! k1) → is_Some (vm !! k2) →
              field_value c k1 = Some v → field_value c k2 = Some v →
              k1 = k2) →
  (∀ key paths path,
     vm !! key = Some paths → path ∈ paths →
     rooted path = true ∧ segments path ≠ []
     ∧ addressable (segments path) (VMap entries) = true) →
  (∀ key1 paths1 path1 key2 paths2 path2,
     vm !! key1 = Some paths1 → path1 ∈ paths1 →
     vm !! key2 = Some paths2 → path2 ∈ paths2 →
     (key1 = key2 ∧ segments path1 = segments path2)
     ∨ diverge (segments path1) (segments path2) = true) →
  ∃ sets params,
    Forall (fun e => is_EvSet e = true) sets
    ∧ serve_ app c
      = (bind_events berr ++ sets
           ++ map EvProvider (seq 0 (length (ContextProviders app)))
           ++ [EvDo params; EvJSON http.StatusOK (BodyResult (Do params))],
         Finished)
    ∧ graphql.PRequestString params = RequestString ops
    ∧ graphql.POperationName params = OperationName ops
    ∧ (∀ key paths path v,
         vm !! key = Some paths → path ∈ paths →
         field_value c key = Some v →
         walk (segments path) (to_interface (graphql.PVariableValues params))
         = Some v)
    ∧ (∀ qs,
         (∀ key paths path,
            vm !! key = Some paths → path ∈ paths →
            diverge (segments path) qs = true) →
         walk qs (to_interface (graphql.PVariableValues params))
         = walk qs (VMap entries)).
Proof.
  intros Hbind Hops%length_pos_nonempty Hmap%length_pos_nonempty
         Hdec_ops Hvars Hdec_map Hpresent Hinj Hpaths Hcompat.
  destruct (collect_range c vm Hpresent Hinj)
    as (uploads & variables & Hcollect & Hup & Htx).
  set (todo := assignments VString (range_s variables)
               ++ assignments VFile (range_p uploads)).
  assert (Hmem : ∀ v ps,
            (v, ps) ∈ todo
            ↔ ∃ key paths path, vm !! key = Some paths ∧ path ∈ paths
                                ∧ field_value c key = Some v
                                ∧ ps = segments path).
  { intros v ps. unfold todo. rewrite elem_of_app, !elem_of_assignments.
    split.
    - intros [(text & paths & path & Hin%range_s_elem & Hpath & -> & ->)
             |(fh & paths & path & Hin%range_p_elem & Hpath & -> & ->)].
      + apply Htx in Hin as (key & Hkey & Hval). eauto 10.
      + apply Hup in Hin as (key & Hkey & Hval). eauto 10.
    - intros (key & paths & path & Hkey & Hpath & Hval & ->).
      destruct (field_value_cases c key v Hval) as [[text ->]|[fh ->]].
      + left. exists text, paths, path. split; [|done].
        apply range_s_elem, Htx. eauto.
      + right. exists fh, paths, path. split; [|done].
        apply range_p_elem, Hup. eauto. }
  destruct (place_all_spec todo (VMap entries))
    as (m' & Hall & Hread & Hframe).
  { intros v ps (key & paths & path & Hkey & Hpath & _ & ->)%Hmem.
    destruct (Hpaths key paths path Hkey Hpath) as (_ & Hne & Haddr). done. }
  { intros v1 ps1 v2 ps2
           (key1 & paths1 & path1 & Hkey1 & Hpath1 & Hval1 & ->)%Hmem
           (key2 & paths2 & path2 & Hkey2 & Hpath2 & Hval2 & ->)%Hmem.
    destruct (Hcompat key1 paths1 path1 key2 paths2 path2)
      as [[-> Hsegs]|Hdiv]; [done..| |by right].
    left. split; [done|]. congruence. }
  pose proof Hall as [final ->]%place_all_map_root.
  unfold todo in Hall. rewrite place_all_app in Hall.
  destruct (place_all (assignments VString (range_s variables)) (VMap entries))
    as [m1|] eqn:H1; cbn [result_bind] in Hall; [|done].
  destruct (set_entries_place_all VString (range_s variables)
              (VMap entries) m1) as (sets1 & Hsets1 & Hev1); [|done|].
  { apply Forall_forall. intros [text paths] Hin%range_s_elem.
    apply Htx in Hin as (key & Hkey & _). apply Forall_forall.
    intros path Hpath. by destruct (Hpaths key paths path Hkey Hpath). }
  destruct (set_entries_place_all VFile (range_p uploads)
              m1 (VMap final)) as (sets2 & Hsets2 & Hev2); [|done|].
  { apply Forall_forall. intros [fh paths] Hin%range_p_elem.
    apply Hup in Hin as (key & Hkey & _). apply Forall_forall.
    intros path Hpath. by destruct (Hpaths key paths path Hkey Hpath). }
  exists (sets1 ++ sets2). eexists.
  split; [by apply Forall_app|]. split.
  { unfold serve, assemble.
    rewrite Hbind, Hops, Hmap, Hdec_ops, Hdec_map, Hcollect, Hvars.
    cbn [andb to_interface]. rewrite Hsets1, Hsets2.
    cbn [of_interface]. rewrite <- !app_assoc. reflexivity. }
  cbn [params_of graphql.PRequestString graphql.POperationName
       graphql.PVariableValues Basic RequestString OperationName
       VariableValues to_interface].
  split; [done|]. split; [done|]. split.
  - intros key paths path v Hkey Hpath Hval. apply Hread, Hmem. eauto 10.
  - intros qs Hqs. apply Hframe.
    intros v ps (key & paths & path & Hkey & Hpath & _ & ->)%Hmem. eauto.
Qed.

End HandlerAssembly.

(* ===================================================================== *)
(** ** Providers and registrations *)
(* ===================================================================== *)

Lemma run_providers_keeps (providers : list ContextProviderFn)
    (c : gin.Context) :
  Forall keeps_gin_context providers →
  ∀ ctx,
    context.Value
      (fold_left (fun ctx provider => provider (Some c) ctx) providers ctx)
      (context.KString GinContextKey)
    = context.Value ctx (context.KString GinContextKey).
Proof.
  induction providers as [|p ps IH]; intros Hall ctx; [done|].
  apply Forall_cons in Hall as [Hp Hps]. cbn [fold_left].
  rewrite (IH Hps). apply Hp.
Qed.

Section Registered.

Variable Unmarshal_params : string → GraphQLRequestParams * option error.
Variable Unmarshal_map : string → gmap string (list string) * option error.
Variable range_s : gmap string (list string) → list (string * list string).
Variable range_p :
  gmap FileHeaderPtr (list string) → list (FileHeaderPtr * list string).
Variable Do : graphql.Params → graphql.Result.

Local Notation register_all_ :=
  (register_all Unmarshal_params Unmarshal_map range_s range_p Do).

Lemma register_all_app (registrations : list (list ContextProviderFn)) :
  ∀ app,
    ContextProviders (register_all_ app registrations)
    = ContextProviders app ++ concat registrations
    ∧ Schema (register_all_ app registrations) = Schema app.
Proof.
  induction registrations as [|hps regs IH]; intros app.
  { cbn. by rewrite app_nil_r. }
  change (register_all_ app (hps :: regs))
    with (register_all_ {| Schema := Schema app;
                           ContextProviders := ContextProviders app ++ hps |}
                        regs).
  destruct (IH {| Schema := Schema app;
                  ContextProviders := ContextProviders app ++ hps |})
    as [-> ->].
  cbn [ContextProviders Schema concat]. by rewrite <- app_assoc.
Qed.

(** X16: whatever the number of calls of [app.Handler], the provider list
    of the application is the implicit provider, then the providers given
    to [New], then those of each call in the order of the calls; nothing
    is dropped, repeated or reordered. *)
Theorem X16_providers_after_registrations (schema : graphql.Schema)
    (cps : list ContextProviderFn)
    (registrations : list (list ContextProviderFn)) :
  ContextProviders (register_all_ (New schema cps) registrations)
  = GinContextProvider :: cps ++ concat registrations.
Proof.
  destruct (register_all_app registrations (New schema cps)) as [-> _].
  by cbn [New ContextProviders Datatypes.app].
Qed.

(** X17: as long as no provider given to [New] or to [app.Handler]
    rebinds the reserved key, every one of them is called with a context
    from which [GetGinContext] returns the handle of the request, and so
    is the engine. *)
Theorem X17_gin_context_in_chain (schema : graphql.Schema)
    (cps : list ContextProviderFn)
    (registrations : list (list ContextProviderFn)) (c : gin.Context) :
  Forall keeps_gin_context (cps ++ concat registrations) →
  let providers :=
    ContextProviders (register_all_ (New schema cps) registrations) in
  (∀ n, GetGinContext (run_providers (take (S n) providers) c) = Some c)
  ∧ GetGinContext (run_providers providers c) = Some c.
Proof.
  intros Hkeep providers. subst providers.
  destruct (register_all_app registrations (New schema cps)) as [-> _].
  cbn [New ContextProviders Datatypes.app].
  assert (Hchain : ∀ rest, Forall keeps_gin_context rest →
            GetGinContext (run_providers (GinContextProvider :: rest) c)
            = Some c).
  { intros rest Hrest. unfold GetGinContext, run_providers. cbn [fold_left].
    rewrite (run_providers_keeps rest c Hrest).
    unfold GinContextProvider. cbn [context.Value]. by rewrite decide_True. }
  split; [|by apply Hchain].
  intros n. cbn [take]. apply Hchain. by apply Forall_take.
Qed.

End Registered.

(* ===================================================================== *)
(** ** Uploads without a variables object *)
(* ===================================================================== *)





Lemma set_paths_values (v : value) (paths : list string) :
  ∀ m, Forall (fun e => ∃ path, e = EvSet v path) (fst (set_paths v paths m)).
Proof.
  induction paths as [|path paths' IH]; intros m; [constructor|].
  cbn [set_paths].
  destruct (set v m path) as [[m' [err|]]|p]; cbn [fst];
    [repeat constructor; eauto| |repeat constructor; eauto].
  specialize (IH m'). destruct (set_paths v paths' m') as [evs r].
  constructor; eauto.
Qed.

Lemma set_entries_values {K : Type} (inj : K → value)
    (todo : list (K * list string)) :
  ∀ m, Forall (fun e => ∃ k path, e = EvSet (inj k) path)
              (fst (set_entries inj todo m)).
Proof.
  induction todo as [|[k paths] todo' IH]; intros m; [constructor|].
  cbn [set_entries].
  pose proof (set_paths_values (inj k) paths m) as Hpaths.
  assert (Hk : Forall (fun e => ∃ k path, e = EvSet (inj k) path)
                      (fst (set_paths (inj k) paths m))).
  { eapply Forall_impl; [exact Hpaths|]. intros e [path ->]. eauto. }
  destruct (set_paths (inj k) paths m) as [evs [m'| |]]; cbn [fst] in *;
    try done.
  specialize (IH m'). destruct (set_entries inj todo' m') as [evs' r].
  cbn [fst] in *. by apply Forall_app.
Qed.

Section HandlerEdges.

Variable Unmarshal_params : string → GraphQLRequestParams * option error.
Variable Unmarshal_map : string → gmap string (list string) * option error.
Variable range_s : gmap string (list string) → list (string * list string).
Variable range_p :
  gmap FileHeaderPtr (list string) → list (FileHeaderPtr * list string).
Variable Do : graphql.Params → graphql.Result.

Hypothesis range_s_perm : ∀ m, range_s m ≡ₚ map_to_list m.
Hypothesis range_p_perm : ∀ m, range_p m ≡ₚ map_to_list m.

Local Notation assemble_ :=
  (assemble Unmarshal_params Unmarshal_map range_s range_p).
Local Notation serve_ :=
  (serve Unmarshal_params Unmarshal_map range_s range_p Do).


(** X19: in every request the calls of [set] for the text fields all come
    before the calls for the file fields, whatever the order of the upload
    map. *)
Theorem X19_text_before_files (app : GraphQLApp) (c : gin.Context) :
  ∃ texts files rest,
    fst (serve_ app c)
    = bind_events (snd (gin.ShouldBind c)) ++ texts ++ files ++ rest
    ∧ Forall (fun e => is_text_set e = true) texts
    ∧ Forall (fun e => is_file_set e = true) files
    ∧ Forall (fun e => is_EvSet e = false) rest.
Proof.
  assert (Htext : ∀ todo m, Forall (fun e => is_text_set e = true)
                              (fst (set_entries VString todo m))).
  { intros todo m. eapply Forall_impl; [apply set_entries_values|].
    by intros e (k & path & ->). }
  assert (Hfile : ∀ todo m, Forall (fun e => is_file_set e = true)
                              (fst (set_entries VFile todo m))).
  { intros todo m. eapply Forall_impl; [apply (set_entries_values VFile)|].
    by intros e (k & path & ->). }
  assert (Hasm : ∀ req, ∃ texts files,
            fst (assemble_ c req) = texts ++ files
            ∧ Forall (fun e => is_text_set e = true) texts
            ∧ Forall (fun e => is_file_set e = true) files).
  { intros req. unfold assemble.
    destruct (_ && _); [|by exists [], []].
    destruct (Unmarshal_params _) as [ops [err|]]; [by exists [], []|].
    destruct (Unmarshal_map _) as [vm [err|]]; [by exists [], []|].
    destruct (collect _ _ _ _) as [err|[uploads variables]];
      [by exists [], []|].
    pose proof (Htext (range_s variables)
                  (to_interface (VariableValues ops))) as H1.
    destruct (set_entries VString _ _) as [evs [m1|err|p]]; cbn [fst] in H1;
      [|exists evs, []; by rewrite app_nil_r..].
    pose proof (Hfile (range_p uploads) m1) as H2.
    destruct (set_entries VFile _ _) as [evs' [m2|err|p]]; cbn [fst] in H2;
      by exists evs, evs'. }
  unfold serve. destruct (gin.ShouldBind c) as [req berr]. cbn [snd].
  destruct (Hasm req) as (texts & files & Heq & Ht & Hf).
  destruct (assemble_ c req) as [evs [req'|message err|p]]; cbn [fst] in *;
    subst evs; exists texts, files.
  - eexists. rewrite <- !app_assoc. split; [reflexivity|].
    split; [done|]. split; [done|]. rewrite Forall_app. split.
    + apply Forall_forall. intros e He.
      apply list_elem_of_fmap in He as (i & -> & _). done.
    + by repeat constructor.
  - eexists. rewrite <- !app_assoc. split; [reflexivity|].
    split; [done|]. split; [done|]. by repeat constructor.
  - exists []. rewrite !app_nil_r. split; [done|]. by repeat constructor.
Qed.

End HandlerEdges.
(* ===================================================================== *)
(** ** The further properties on the sample requests *)
(* ===================================================================== *)

Lemma X1_witness :
  walk (segments "variables.files.1")
       (VMap {[ "files" := VSlice [VNil; VFile 7%positive];
                "note" := VNil ]})
  = Some (VFile 7%positive).
Proof.
  apply (X1_set_read_back (VFile 7%positive) (VMap Fixture.vars_album)
           _ "variables.files.1"); [done|by vm_compute].
Defined.

Lemma X2_witness :
  walk [PString "note"]
       (VMap {[ "files" := VSlice [VNil; VFile 7%positive];
                "note" := VNil ]})
  = walk [PString "note"] (VMap Fixture.vars_album).
Proof.
  apply (X2_set_frame (VFile 7%positive) (VMap Fixture.vars_album)
           _ "variables.files.1" [PString "note"]); by vm_compute.
Defined.

Lemma X3_witness :
  set (VFile 8%positive)
      (VMap {[ "files" := VSlice [VNil; VFile 7%positive];
               "note" := VNil ]})
      "variables.files.1"
  = set (VFile 8%positive) (VMap Fixture.vars_album) "variables.files.1".
Proof.
  apply (X3_set_overwrite (VFile 7%positive) (VFile 8%positive)
           (VMap Fixture.vars_album)). by vm_compute.
Defined.

Lemma X6_witness :
  ∃ entries',
    VMap (<["extra" := VString "x"]> Fixture.vars_album) = VMap entries'
    ∧ dom entries' = dom Fixture.vars_album ∪ {[ "extra"%string ]}.
Proof.
  apply (X6_set_keys (VString "x") Fixture.vars_album _ "variables.extra").
  by vm_compute.
Defined.

Lemma X7_witness :
  parse_part "0042" = PInt 42
  ∧ parse_part "99999999999999999999" = PInt strconv.maxInt.
Proof.
  split.
  - apply (proj1 (X7_digit_token_index "0042" eq_refl)).
  - apply (proj1 (X7_digit_token_index "99999999999999999999" eq_refl)).
Defined.

Lemma X8_witness :
  parse_part "-1" = PInt (-1) ∧ element_at [VNil; VNil] (-1) = None.
Proof.
  destruct (X8_minus_token_index "1" eq_refl) as [Hpart Hrange].
  split; [exact Hpart|]. by apply Hrange.
Defined.

Lemma X10_witness :
  collect Fixture.c_album (map_to_list Fixture.map_album) ∅ ∅
  = collect Fixture.c_album_shadowed (map_to_list Fixture.map_album) ∅ ∅.
Proof.
  apply (X10_collect_text_first Fixture.c_album Fixture.c_album_shadowed).
  - done.
  - intros key. cbn. unfold Fixture.form_text.
    destruct (String.eqb key "n"); [discriminate|done].
Defined.

Lemma album_keys (key : string) (paths : list string) :
  Fixture.map_album !! key = Some paths →
  (key = "0"%string ∧ paths = ["variables.files.0"%string])
  ∨ (key = "n"%string ∧ paths = ["variables.note"%string]).
Proof.
  unfold Fixture.map_album.
  intros [[<- <-]|[_ [<- <-]%lookup_singleton_Some]]%lookup_insert_Some; eauto.
Qed.

Lemma album_present (c : gin.Context) (key : string) :
  gin.GetPostForm c = Fixture.form_text →
  gin.FormFile c = Fixture.form_file →
  is_Some (Fixture.map_album !! key) → is_Some (field_value c key).
Proof.
  intros Hform Hfile [paths [[-> _]|[-> _]]%album_keys];
    unfold field_value; rewrite Hform, ?Hfile; vm_compute; eauto.
Qed.

Lemma album_values (k1 k2 : string) (v : value) :
  is_Some (Fixture.map_album !! k1) → is_Some (Fixture.map_album !! k2) →
  field_value Fixture.c_album k1 = Some v →
  field_value Fixture.c_album k2 = Some v →
  k1 = k2.
Proof.
  intros [p1 [[-> _]|[-> _]]%album_keys] [p2 [[-> _]|[-> _]]%album_keys];
    try done; vm_compute; congruence.
Qed.

Lemma album_paths (key : string) (paths : list string) (path : string) :
  Fixture.map_album !! key = Some paths → path ∈ paths →
  rooted path = true ∧ segments path ≠ []
  ∧ addressable (segments path) (VMap Fixture.vars_album) = true.
Proof.
  intros [[-> ->]|[-> ->]]%album_keys ->%list_elem_of_singleton;
    vm_compute; repeat split; discriminate.
Qed.

Lemma album_compat (key1 : string) (paths1 : list string) (path1 : string)
    (key2 : string) (paths2 : list string) (path2 : string) :
  Fixture.map_album !! key1 = Some paths1 → path1 ∈ paths1 →
  Fixture.map_album !! key2 = Some paths2 → path2 ∈ paths2 →
  (key1 = key2 ∧ segments path1 = segments path2)
  ∨ diverge (segments path1) (segments path2) = true.
Proof.
  intros [[-> ->]|[-> ->]]%album_keys ->%list_elem_of_singleton
         [[-> ->]|[-> ->]]%album_keys ->%list_elem_of_singleton;
    first [by left | right; by vm_compute].
Qed.

Lemma X11_witness :
  (∀ fileHeader paths,
     ({[ 5%positive := ["variables.files.0"%string] ]}
        : gmap FileHeaderPtr (list string)) !! fileHeader = Some paths
     ↔ ∃ key, (key, paths) ∈ map_to_list Fixture.map_album
              ∧ field_value Fixture.c_album key = Some (VFile fileHeader))
  ∧ (({[ "hello" := ["variables.note"] ]} : gmap string (list string))
       !! "hello"%string = Some ["variables.note"%string]
     ↔ ∃ key, (key, ["variables.note"%string])
                ∈ map_to_list Fixture.map_album
              ∧ field_value Fixture.c_album key = Some (VString "hello")).
Proof.
  assert (Hkeys : NoDup (map_to_list Fixture.map_album).*1)
    by apply NoDup_fst_map_to_list.
  assert (Hinj : ∀ k1 k2 v,
             k1 ∈ (map_to_list Fixture.map_album).*1 →
             k2 ∈ (map_to_list Fixture.map_album).*1 →
             field_value Fixture.c_album k1 = Some v →
             field_value Fixture.c_album k2 = Some v → k1 = k2).
  { intros k1 k2 v
      ([? p1] & -> & H1%elem_of_map_to_list)%list_elem_of_fmap
      ([? p2] & -> & H2%elem_of_map_to_list)%list_elem_of_fmap.
    apply album_values; eauto. }
  assert (Hcollect :
            collect Fixture.c_album (map_to_list Fixture.map_album) ∅ ∅
            = inr ({[ 5%positive := ["variables.files.0"%string] ]},
                   {[ "hello"%string := ["variables.note"%string] ]}))
    by (by vm_compute).
  destruct (X11_collect_maps Fixture.c_album
              (map_to_list Fixture.map_album) _ _ Hkeys Hinj Hcollect)
    as [Hfiles Htexts].
  split; [exact Hfiles|exact (Htexts "hello"%string _)].
Defined.

Lemma X14_witness :
  ∃ message err,
    graphqlErrorReply "invalid file upload" "http: no such file"
    = graphqlErrorReply message err
    ∧ (message = "invalid file upload"%string
       → ∃ key, gin.GetPostForm Sample.c_missing_file key = None
                ∧ snd (gin.FormFile Sample.c_missing_file key) = Some err).
Proof.
  assert (Hin : In (EvJSON 200
                      (BodyValue (graphqlErrorReply "invalid file upload"
                                                    "http: no such file")))
                   (fst (serve Sample.Unmarshal_params Sample.Unmarshal_map
                               Sample.range_s Sample.range_p Sample.Do
                               (New Sample.empty_schema [])
                               Sample.c_missing_file))).
  { vm_compute. left. reflexivity. }
  destruct (X14_error_reply_causes
              Sample.Unmarshal_params Sample.Unmarshal_map Sample.range_s
              Sample.range_p Sample.Do (fun m => Permutation_refl _)
              (New Sample.empty_schema []) Sample.c_missing_file
              200 _ Hin)
    as (_ & message & err & Hreply & Hcause).
  exists message, err. split; [exact Hreply|]. intros ->.
  destruct Hcause as [[Hm _]|[[Hm _]|[[_ (key & _ & Hform & Hfile)]|[Hm _]]]];
    [discriminate Hm|discriminate Hm|eauto|discriminate Hm].
Defined.

Lemma X15_witness :
  ∃ sets params,
    Forall (fun e => is_EvSet e = true) sets
    ∧ serve Fixture.Unmarshal_params Fixture.Unmarshal_map Sample.range_s
            Sample.range_p Sample.Do (New Sample.empty_schema [])
            Fixture.c_album
      = (sets ++ [EvProvider 0; EvDo params;
                  EvJSON http.StatusOK (BodyResult (Sample.Do params))],
         Finished)
    ∧ walk [PString "files"; PInt 0]
           (to_interface (graphql.PVariableValues params))
      = Some (VFile 5%positive)
    ∧ walk [PString "note"]
           (to_interface (graphql.PVariableValues params))
      = Some (VString "hello")
    ∧ walk [PString "files"; PInt 1]
           (to_interface (graphql.PVariableValues params))
      = Some VNil.
Proof.
  assert (Hops : OperationsString (fst (gin.ShouldBind Fixture.c_album))
                 ≠ ""%string) by (vm_compute; discriminate).
  assert (Hmap : MapString (fst (gin.ShouldBind Fixture.c_album))
                 ≠ ""%string) by (vm_compute; discriminate).
  assert (Hdec_ops :
            Fixture.Unmarshal_params
              (OperationsString (fst (gin.ShouldBind Fixture.c_album)))
            = (Fixture.operations_album, None)) by (vm_compute; reflexivity).
  assert (Hdec_map :
            Fixture.Unmarshal_map
              (MapString (fst (gin.ShouldBind Fixture.c_album)))
            = (Fixture.map_album, None)) by (vm_compute; reflexivity).
  destruct (X15_assembly_places_every_field
              Fixture.Unmarshal_params Fixture.Unmarshal_map Sample.range_s
              Sample.range_p Sample.Do
              (fun m => Permutation_refl _) (fun m => Permutation_refl _)
              (New Sample.empty_schema []) Fixture.c_album
              (fst (gin.ShouldBind Fixture.c_album)) None
              Fixture.operations_album Fixture.vars_album Fixture.map_album
              eq_refl Hops Hmap Hdec_ops eq_refl Hdec_map
              (fun key => album_present Fixture.c_album key eq_refl eq_refl)
              album_values album_paths album_compat)
    as (sets & params & Hsets & Hserve & _ & _ & Hread & Hframe).
  exists sets, params. split; [exact Hsets|]. split; [exact Hserve|].
  split; [|split].
  - apply (Hread "0"%string ["variables.files.0"%string]
             "variables.files.0"%string);
      [by vm_compute|by apply list_elem_of_singleton|by vm_compute].
  - apply (Hread "n"%string ["variables.note"%string]
             "variables.note"%string);
      [by vm_compute|by apply list_elem_of_singleton|by vm_compute].
  - rewrite (Hframe [PString "files"; PInt 1]); [by vm_compute|].
    intros key paths path [[-> ->]|[-> ->]]%album_keys
           ->%list_elem_of_singleton; by vm_compute.
Defined.

Lemma count_runs_keeps : keeps_gin_context Sample.count_runs.
Proof.
  intros c ctx. unfold Sample.count_runs.
  by destruct (context.Value ctx (context.KString "runs")).
Qed.

Lemma X17_witness :
  GetGinContext
    (run_providers [GinContextProvider; Sample.count_runs; Sample.count_runs]
                   Sample.c_plain)
  = Some Sample.c_plain.
Proof.
  apply (X17_gin_context_in_chain
           Sample.Unmarshal_params Sample.Unmarshal_map Sample.range_s
           Sample.range_p Sample.Do Sample.empty_schema []
           [[Sample.count_runs]; [Sample.count_runs]] Sample.c_plain).
  repeat constructor; apply count_runs_keeps.
Defined.



